(** * solana-alpha-agent: the opportunity-scoring pipeline of [src/index.ts]

    A shallow embedding of the narrative fetch, the scorer [findAlpha], the
    price client [getTokenPrices] and the price enrichment of the [/alpha]
    and [/analyze] handlers, followed by the properties proved about them.

    Conventions.
    - A JavaScript number is an IEEE-754 binary64 value: [float].
    - A JavaScript string is a [string]; concatenation (template literals)
      is [+:+].  [String.prototype.toLowerCase] is a host builtin whose
      Unicode tables are not reproduced: the development is parametric in
      it (class [Host]), and [ascii_host] instantiates it for ASCII text.
    - A plain object used as a dictionary is the list of its own
      properties in enumeration order, read through the prototype chain.
    - [async] functions that await the network are programs of the small
      monad [IO]; [try]/[catch] is [try_catch]. *)

From Stdlib Require Import PrimFloat.
From Stdlib Require FloatOps SpecFloat.
From stdpp Require Import base option list sorting gmap strings pretty.

Local Open Scope string_scope.
Local Open Scope float_scope.
Local Open Scope list_scope.
Set Warnings "-inexact-float,-register-all".

(** ** Host strings *)

Class Host := { toLowerCase : string → string }.

Definition lower_ascii (c : Ascii.ascii) : Ascii.ascii :=
  let n := Ascii.nat_of_ascii c in
  if (65 <=? n)%nat && (n <=? 90)%nat then Ascii.ascii_of_nat (n + 32) else c.

Fixpoint lower_string (s : string) : string :=
  match s with
  | EmptyString => EmptyString
  | String c s' => String (lower_ascii c) (lower_string s')
  end.

(** [toLowerCase] on ASCII text: [A]..[Z] are mapped to [a]..[z]. *)
Definition ascii_host : Host := {| toLowerCase := lower_string |}.

(** ** Objects used as dictionaries *)

(** The property names every ordinary object inherits from
    [Object.prototype]. *)
Definition Object_prototype_keys : list string :=
  [ "constructor"; "__defineGetter__"; "__defineSetter__"; "hasOwnProperty";
    "__lookupGetter__"; "__lookupSetter__"; "isPrototypeOf";
    "propertyIsEnumerable"; "toString"; "valueOf"; "__proto__";
    "toLocaleString" ].

(** What an expression typed [string[]] holds at run time when it was read
    out of a [Record<string, string[]>]: an array of the table, or a member
    of [Object.prototype] (a builtin function; for ["__proto__"] the
    prototype object).  Both are truthy and only the first has [map]. *)
Inductive TokensValue :=
| TokenArray (ids : list string)
| PrototypeMember (key : string).

Fixpoint own_property {V} (props : list (string * V)) (key : string) : option V :=
  match props with
  | [] => None
  | (k, v) :: rest => if String.eqb k key then Some v else own_property rest key
  end.

(** [table[key]]: own properties first, then the prototype; [None] is
    [undefined]. *)
Definition get_tokens (table : list (string * list string)) (key : string)
  : option TokensValue :=
  match own_property table key with
  | Some ids => Some (TokenArray ids)
  | None =>
      if bool_decide (key ∈ Object_prototype_keys)
      then Some (PrototypeMember key) else None
  end.

(** [v || []] for such a value: arrays (also empty ones), functions and
    objects are truthy, [undefined] is not. *)
Definition or_empty_array (v : option TokensValue) : TokensValue :=
  match v with
  | Some x => x
  | None => TokenArray []
  end.

(** ** Types *)

Record Idea := { idea_name : string; description : string; complexity : string }.

Module Narrative.
Record t := mk {
  name : string;
  confidence : string;
  direction : string;
  explanation : string;
  ideas : list Idea;
  (* read with [?.] by the scorer: the field may be missing *)
  supporting_signals : option (list string);
}.
End Narrative.

Inductive Risk := LOW | MEDIUM | HIGH.

Module AlphaOpportunity.
Record t := mk {
  narrative : string;
  action : string;
  tokens : TokensValue;
  reasoning : string;
  confidence : float;
  risk : Risk;
  suggested_allocation : string;
}.
End AlphaOpportunity.

(** ** Narrative-to-token mapping *)

Definition NARRATIVE_TOKENS : list (string * list string) :=
  [ ("defi", ["JUPyiwrYJFskUPiHa7hkeR8VUtAeFoSYbKedZNsDvCN";
              "DezXAZ8z7PnrnRJjz3wXBoRgixCa6xjnB7YaB1pPB263"]);
    ("ai agents", ["FoqP7aTaibT5npFKYpYYADYY4Dc1GYVqJBJhV88PBvMV"]);
    ("trading", ["JUPyiwrYJFskUPiHa7hkeR8VUtAeFoSYbKedZNsDvCN"]);
    ("infrastructure", ["So11111111111111111111111111111111111111112"]);
    ("staking", ["mSoLzYCxHdYgdzU16g5QSh3i5K3z3KZK7ytfqcJm7So"]);
    ("rwa", []);
    ("memecoins", ["DezXAZ8z7PnrnRJjz3wXBoRgixCa6xjnB7YaB1pPB263"]) ].

(** ** [Array.prototype.sort]

    ECMAScript requires the sort to be stable and, for a consistent
    comparator, fixes its result; the order of evaluation is left to the
    engine.  The model is the stable insertion sort: [x] moves behind [y]
    exactly when [comparator x y > 0] (a [NaN] result counts as [+0]). *)

Section ArraySort.
Context {A : Type} (comparator : A → A → float).

Definition sorts_after (x y : A) : bool := PrimFloat.ltb 0 (comparator x y).

Fixpoint sort_insert (x : A) (l : list A) : list A :=
  match l with
  | [] => [x]
  | y :: l' => if sorts_after x y then y :: sort_insert x l' else x :: l
  end.

Definition Array_sort (l : list A) : list A := foldr sort_insert [] l.

(** Neither element has to come after the other. *)
Definition tied (x y : A) : bool :=
  negb (sorts_after x y) && negb (sorts_after y x).
End ArraySort.

(** ** Analyze narratives and find alpha *)

Section FindAlpha.
Context `{Host}.

(** [narrative.supporting_signals?.length || 0] *)
Definition signals_count (narrative : Narrative.t) : nat :=
  match Narrative.supporting_signals narrative with
  | Some signals => length signals
  | None => 0
  end.

(** One iteration of the [for ... of] loop; [opportunities.push(o)]
    appends [o].  ([findAlpha] is declared [async] and awaits nothing: it
    is a function of its argument.) *)
Definition findAlpha_step (opportunities : list AlphaOpportunity.t)
    (narrative : Narrative.t) : list AlphaOpportunity.t :=
  let key := toLowerCase (Narrative.name narrative) in
  let tokens := or_empty_array (get_tokens NARRATIVE_TOKENS key) in
  if String.eqb (Narrative.confidence narrative) "HIGH"
     && String.eqb (Narrative.direction narrative) "ACCELERATING"
  then
    opportunities ++ [
      {| AlphaOpportunity.narrative := Narrative.name narrative;
         AlphaOpportunity.action := "ACCUMULATE";
         AlphaOpportunity.tokens := tokens;
         AlphaOpportunity.reasoning :=
           Narrative.name narrative
           +:+ " is a high-confidence accelerating narrative with "
           +:+ pretty (signals_count narrative)
           +:+ " supporting signals. "
           +:+ Narrative.explanation narrative;
         AlphaOpportunity.confidence := 0.85;
         AlphaOpportunity.risk := MEDIUM;
         AlphaOpportunity.suggested_allocation := "5-10% of portfolio" |} ]
  else if String.eqb (Narrative.confidence narrative) "MEDIUM"
  then
    let accelerating :=
      String.eqb (Narrative.direction narrative) "ACCELERATING" in
    opportunities ++ [
      {| AlphaOpportunity.narrative := Narrative.name narrative;
         AlphaOpportunity.action :=
           if accelerating then "DCA" else "WATCHLIST";
         AlphaOpportunity.tokens := tokens;
         AlphaOpportunity.reasoning :=
           Narrative.name narrative
           +:+ " showing "
           +:+ toLowerCase (Narrative.direction narrative)
           +:+ " trend. "
           +:+ Narrative.explanation narrative;
         AlphaOpportunity.confidence :=
           if accelerating then 0.6 else 0.4;
         AlphaOpportunity.risk := LOW;
         AlphaOpportunity.suggested_allocation :=
           if accelerating then "2-5% of portfolio" else "Watch only" |} ]
  else opportunities.

(** [(a, b) => b.confidence - a.confidence] *)
Definition by_confidence_desc (a b : AlphaOpportunity.t) : float :=
  PrimFloat.sub (AlphaOpportunity.confidence b) (AlphaOpportunity.confidence a).

Definition findAlpha (narratives : list Narrative.t)
  : list AlphaOpportunity.t :=
  let opportunities := foldl findAlpha_step [] narratives in
  Array_sort by_confidence_desc opportunities.

(** What the loop pushes for one narrative, on its own. *)
Definition emitted (narrative : Narrative.t) : list AlphaOpportunity.t :=
  findAlpha_step [] narrative.
End FindAlpha.

(** ** JSON values and the [||] operator *)

(** What [await resp.json()] resolves to.  An object is the list of its own
    properties in enumeration order (keys distinct). *)
Inductive Json :=
| JNull
| JBool (b : bool)
| JNumber (x : float)
| JString (s : string)
| JArray (items : list Json)
| JObject (props : list (string * Json)).

Definition truthy (v : Json) : bool :=
  match v with
  | JNull => false
  | JBool b => b
  | JNumber x => negb (PrimFloat.is_zero x || PrimFloat.is_nan x)
  | JString s => negb (String.eqb s "")
  | JArray _ | JObject _ => true
  end.

(** [v || d], where [None] is [undefined]. *)
Definition or_else (v : option Json) (d : Json) : Json :=
  match v with
  | Some x => if truthy x then x else d
  | None => d
  end.

(** ** Completions: a value, or a thrown exception *)

Inductive JsError :=
| TypeError (message : string)
| SyntaxError
| FetchFailed.

Inductive Completion (A : Type) :=
| Normal (a : A)
| Throw (e : JsError).
Arguments Normal {A} a.
Arguments Throw {A} e.

Global Instance Completion_ret : MRet Completion := λ A a, Normal a.
Global Instance Completion_bind : MBind Completion := λ A B f c,
  match c with
  | Normal a => f a
  | Throw e => Throw e
  end.

(** [v.key] for one of the keys ["narratives"], ["data"] and ["price"]:
    reading a property of [null] throws; on an object the own property is
    read; no builtin prototype (of objects, arrays, strings, numbers or
    booleans) has one of these three keys, so anything else is
    [undefined]. *)
Definition get_field (v : Json) (key : string) : Completion (option Json) :=
  match v with
  | JNull =>
      Throw (TypeError ("Cannot read properties of null (reading '" +:+ key +:+ "')"))
  | JObject props => Normal (own_property props key)
  | _ => Normal None
  end.

Fixpoint string_chars (s : string) : list string :=
  match s with
  | EmptyString => []
  | String c s' => String c EmptyString :: string_chars s'
  end.

(** [Object.entries(v)]; the entries of a string are its characters
    (its bytes here: exact for ASCII text). *)
Definition Object_entries (v : Json) : Completion (list (string * Json)) :=
  match v with
  | JNull => Throw (TypeError "Cannot convert undefined or null to object")
  | JObject props => Normal props
  | JArray items => Normal (imap (λ i x, (pretty i, x)) items)
  | JString s => Normal (imap (λ i c, (pretty i, JString c)) (string_chars s))
  | JBool _ | JNumber _ => Normal []
  end.

(** [Object.fromEntries(entries)]: a later entry overwrites an earlier one
    with the same key. *)
Definition Object_fromEntries {V} (entries : list (string * V)) : gmap string V :=
  foldl (λ obj kv, <[kv.1 := kv.2]> obj) ∅ entries.

(** ** Awaiting the network *)

(** What a resolved [fetch] hands back: the status line, and what
    [resp.json()] resolves to ([None]: it rejects, the body is not JSON). *)
Record Response := { status : Z; body : option Json }.

(** An [async] function of the service: it returns or throws, awaits
    [fetch(url)] (the network answers with a response, or [None] when the
    promise rejects: unreachable host, reset, timeout), or writes to
    [console.error] and goes on. *)
Inductive IO (A : Type) :=
| Return (c : Completion A)
| Fetch (url : string) (k : option Response → IO A)
| ConsoleError (message : string) (e : JsError) (k : IO A).
Arguments Return {A} c.
Arguments Fetch {A} url k.
Arguments ConsoleError {A} message e k.

Fixpoint IO_bind {A B} (f : A → IO B) (m : IO A) : IO B :=
  match m with
  | Return (Normal a) => f a
  | Return (Throw e) => Return (Throw e)
  | Fetch url k => Fetch url (λ r, IO_bind f (k r))
  | ConsoleError msg e k => ConsoleError msg e (IO_bind f k)
  end.

Global Instance IO_ret : MRet IO := λ A a, Return (Normal a).
Global Instance IO_mbind : MBind IO := λ A B f m, IO_bind f m.

(** [try { body } catch (e) { handler }] *)
Fixpoint try_catch {A} (body : IO A) (handler : JsError → IO A) : IO A :=
  match body with
  | Return (Normal a) => Return (Normal a)
  | Return (Throw e) => handler e
  | Fetch url k => Fetch url (λ r, try_catch (k r) handler)
  | ConsoleError msg e k => ConsoleError msg e (try_catch k handler)
  end.

Definition lift {A} (c : Completion A) : IO A := Return c.

(** [await fetch(url)] *)
Definition fetch (url : string) : IO Response :=
  Fetch url (λ r,
    match r with
    | Some resp => Return (Normal resp)
    | None => Return (Throw FetchFailed)
    end).

(** [await resp.json()] *)
Definition json (resp : Response) : IO Json :=
  match body resp with
  | Some data => Return (Normal data)
  | None => Return (Throw SyntaxError)
  end.

(** What happened while an [async] function ran. *)
Inductive Event :=
| Requested (url : string)
| Logged (message : string) (e : JsError).

(** Running a program against a network that answers each URL. *)
Fixpoint run {A} (network : string → option Response) (m : IO A)
  : Completion A * list Event :=
  match m with
  | Return c => (c, [])
  | Fetch url k =>
      let '(c, trace) := run network (k (network url)) in
      (c, Requested url :: trace)
  | ConsoleError msg e k =>
      let '(c, trace) := run network k in
      (c, Logged msg e :: trace)
  end.

(** ** Fetch narratives from the Narrative Radar *)

(** [process.env.NAME || fallback] *)
Definition env_or (value : option string) (fallback : string) : string :=
  match value with
  | Some s => if String.eqb s "" then fallback else s
  | None => fallback
  end.

Definition fetchNarratives (NARRATIVE_RADAR_URL : option string) : IO Json :=
  let radarUrl :=
    env_or NARRATIVE_RADAR_URL
      "https://solana-narrative-radar-8vsib.ondigitalocean.app" in
  try_catch
    (resp ← fetch (radarUrl +:+ "/api/narratives");
     data ← json resp;
     narratives ← lift (get_field data "narratives");
     mret (or_else narratives (JArray [])))
    (λ e,
      ConsoleError "Failed to fetch narratives:" e (mret (JArray []))).

(** ** Get token prices from Jupiter *)

(** The [for ... of] loop over the entries: [prices.set(mint, info.price || 0)].
    The map is updated in place, so what was set before a throw stays. *)
Fixpoint set_prices (entries : list (string * Json)) (prices : gmap string Json)
  : gmap string Json * Completion () :=
  match entries with
  | [] => (prices, Normal ())
  | (mint, info) :: rest =>
      match get_field info "price" with
      | Normal price =>
          set_prices rest (<[mint := or_else price (JNumber 0)]> prices)
      | Throw e => (prices, Throw e)
      end
  end.

Definition getTokenPrices (mints : list string) : IO (gmap string Json) :=
  let prices : gmap string Json := ∅ in
  if bool_decide (length mints = 0%nat) then mret prices
  else
    (* [catch { }] is empty and [return prices] follows it: however the
       [try] block ends, the map as it is then is returned *)
    try_catch
      (resp ← fetch ("https://api.jup.ag/price/v2?ids=" +:+ String.concat "," mints);
       data ← json resp;
       field ← lift (get_field data "data");
       entries ← lift (Object_entries (or_else field (JObject [])));
       mret (set_prices entries prices).1)
      (λ _, mret prices).

(** ** Enrich with prices *)

Module PricedOpportunity.
(** [{ ...o, token_prices }] *)
Record t := mk {
  opportunity : AlphaOpportunity.t;
  token_prices : gmap string Json;
}.
End PricedOpportunity.

(** [tokens.map(f)]: only an array has [map]. *)
Definition Array_map {B} (f : string → B) (tokens : TokensValue)
  : Completion (list B) :=
  match tokens with
  | TokenArray ids => Normal (f <$> ids)
  | PrototypeMember _ => Throw (TypeError "o.tokens.map is not a function")
  end.

(** [Object.fromEntries(o.tokens.map((t) => [t, prices.get(t) || null]))] *)
Definition token_prices_of (prices : gmap string Json) (o : AlphaOpportunity.t)
  : Completion (gmap string Json) :=
  entries ← Array_map (λ t, (t, or_else (prices !! t) JNull))
                      (AlphaOpportunity.tokens o);
  mret (Object_fromEntries entries).

(** The [opportunities.map((o) => ({ ...o, token_prices: ... }))] of the
    [/alpha] and [/analyze] handlers. *)
Definition with_token_prices (prices : gmap string Json)
    (opportunities : list AlphaOpportunity.t)
  : Completion (list PricedOpportunity.t) :=
  mapM (λ o,
      token_prices ← token_prices_of prices o;
      mret {| PricedOpportunity.opportunity := o;
              PricedOpportunity.token_prices := token_prices |})
    opportunities.

(** ** Texts the engine chooses *)

Class Engine := {
  (** [String(v)] for the member [v] of [Object.prototype] under [key]
      (the source text of a builtin function) *)
  member_text : string → string;
  (** [String(x)] for a number [x ≥ 10^21] *)
  large_number_text : float → string;
}.

(** ** The tokens to price *)

(** An element of [opportunities.flatMap((o) => o.tokens)]: [flatMap] opens
    an array and takes any other value as it is. *)
Inductive Mint :=
| MintId (id : string)
| MintMember (key : string).

Global Instance Mint_eq_dec : EqDecision Mint.
Proof. solve_decision. Defined.

Definition flat_tokens (tokens : TokensValue) : list Mint :=
  match tokens with
  | TokenArray ids => MintId <$> ids
  | PrototypeMember key => [MintMember key]
  end.

(** [set.add(x)]: a value already in the set is not added again. *)
Definition Set_add {A} `{EqDecision A} (set : list A) (x : A) : list A :=
  if decide (x ∈ set) then set else set ++ [x].

(** [[...new Set(xs)]]: the values in the order they were first added. *)
Definition Set_values {A} `{EqDecision A} (xs : list A) : list A :=
  foldl Set_add [] xs.

(** [[...new Set(opportunities.flatMap((o) => o.tokens))]] *)
Definition all_tokens (opportunities : list AlphaOpportunity.t) : list Mint :=
  Set_values (opportunities ≫= λ o, flat_tokens (AlphaOpportunity.tokens o)).

(** The text [join] takes of an element. *)
Definition mint_text `{Engine} (m : Mint) : string :=
  match m with
  | MintId id => id
  | MintMember key => member_text key
  end.

(** ** The [/alpha] handler *)

Module AlphaResponse.
Record t := mk {
  opportunities : list PricedOpportunity.t;
  count : nat;
  analyzed_narratives : nat;
  timestamp : string;
}.
End AlphaResponse.

(** The handler from its second statement on, for narratives of the
    declared type [Narrative[]]; [now] is [new Date().toISOString()].
    [getTokenPrices] reads of its argument only the length and
    [join(",")], which takes the text of each element. *)
Definition alpha_response `{Host, Engine} (now : string)
    (narratives : list Narrative.t) : IO AlphaResponse.t :=
  let opportunities := findAlpha narratives in
  let allTokens := all_tokens opportunities in
  prices ← getTokenPrices (mint_text <$> allTokens);
  priced ← lift (with_token_prices prices opportunities);
  mret {| AlphaResponse.opportunities := priced;
          AlphaResponse.count := length opportunities;
          AlphaResponse.analyzed_narratives := length narratives;
          AlphaResponse.timestamp := now |}.

(** ** The [/prices] handler *)

Module PricesResponse.
Record t := mk {
  prices : gmap string Json;
  count : nat;
}.
End PricesResponse.

(** [[...new Set(Object.values(NARRATIVE_TOKENS).flat())]] *)
Definition table_tokens : list string :=
  Set_values (mjoin (snd <$> NARRATIVE_TOKENS)).

Definition prices_response : IO PricesResponse.t :=
  let allTokens := table_tokens in
  prices ← getTokenPrices allTokens;
  mret {| PricesResponse.prices := prices;
          PricesResponse.count := size prices |}.

(** ** The report of [/analyze] *)

(** [x.toFixed(0)]: the integer nearest to [x], the larger one of two
    equally near, in decimal digits, behind the sign of [x]. *)
Definition round_half_up (m : positive) (e : Z) : Z :=
  if (0 <=? e)%Z then (Z.pos m * 2 ^ e)%Z
  else
    let d := (2 ^ (- e))%Z in
    let q := (Z.pos m / d)%Z in
    let r := (Z.pos m mod d)%Z in
    if (d <=? 2 * r)%Z then (q + 1)%Z else q.

Definition at_least (m : positive) (e : Z) (k : Z) : bool :=
  if (0 <=? e)%Z then (k <=? Z.pos m * 2 ^ e)%Z
  else (k * 2 ^ (- e) <=? Z.pos m)%Z.

Definition Number_toFixed0 `{Engine} (x : float) : string :=
  match FloatOps.Prim2SF x with
  | SpecFloat.S754_nan => "NaN"
  | SpecFloat.S754_infinity negative =>
      if negative then "-Infinity" else "Infinity"
  | SpecFloat.S754_zero _ => "0"
  | SpecFloat.S754_finite negative m e =>
      (if negative then "-" else "")
      +:+ (if at_least m e (10 ^ 21)
           then large_number_text (PrimFloat.abs x)
           else pretty (round_half_up m e))
  end.

Definition summary_of `{Engine} (opportunities : list AlphaOpportunity.t)
  : string :=
  match opportunities with
  | top :: _ =>
      "Top alpha: " +:+ AlphaOpportunity.narrative top
      +:+ " → " +:+ AlphaOpportunity.action top
      +:+ " ("
      +:+ Number_toFixed0 (PrimFloat.mul (AlphaOpportunity.confidence top) 100)
      +:+ "% confidence)"
  | [] => "No high-confidence opportunities detected. Market in consolidation."
  end.

(** [narratives.slice(0, 3).map((n) => `${n.name} [${n.confidence}]`)] *)
Definition top_narratives (narratives : list Narrative.t) : list string :=
  (λ n, Narrative.name n +:+ " [" +:+ Narrative.confidence n +:+ "]")
    <$> take 3 narratives.

Module WalletStats.
(** What [getWalletStats] returns: the second and third field are there on
    success only, the last one on failure only. *)
Record t := mk {
  address : string;
  balance_sol : float;
  recent_transactions : option nat;
  network : option string;
  error : option string;
}.
End WalletStats.

Module Report.
Record t := mk {
  timestamp : string;
  agent_wallet : string;
  agent_balance : float;
  agent_network : option string;
  narratives_analyzed : nat;
  opportunities_found : nat;
  top_narratives : list string;
  opportunities : list PricedOpportunity.t;
  summary : string;
}.
End Report.

(** The object [report] of the [/analyze] handler, from the values the
    handler has at that point. *)
Definition analyze_report `{Engine} (now : string)
    (narratives : list Narrative.t)
    (opportunities : list AlphaOpportunity.t)
    (walletStats : WalletStats.t) (prices : gmap string Json)
  : Completion Report.t :=
  priced ← with_token_prices prices opportunities;
  mret {| Report.timestamp := now;
          Report.agent_wallet := WalletStats.address walletStats;
          Report.agent_balance := WalletStats.balance_sol walletStats;
          Report.agent_network := WalletStats.network walletStats;
          Report.narratives_analyzed := length narratives;
          Report.opportunities_found := length opportunities;
          Report.top_narratives := top_narratives narratives;
          Report.opportunities := priced;
          Report.summary := summary_of opportunities |}.

(** ** On-chain stats for the agent wallet *)

(** [haystack.includes(needle)] *)
Fixpoint String_includes (needle haystack : string) : bool :=
  String.prefix needle haystack
  || match haystack with
     | EmptyString => false
     | String _ rest => String_includes needle rest
     end.

(** The endpoint the [Connection] is built with. *)
Definition connection_endpoint (RPC_URL : option string) : string :=
  env_or RPC_URL "https://api.devnet.solana.com".

(** [(process.env.RPC_URL || "").includes("devnet") ? "devnet" : "mainnet"] *)
Definition network_label (RPC_URL : option string) : string :=
  if String_includes "devnet" (env_or RPC_URL "") then "devnet" else "mainnet".

(** What a call of the RPC connection gives: its result, or a thrown error
    with its [message]. *)
Inductive RpcResult (A : Type) :=
| RpcOk (a : A)
| RpcError (message : string).
Arguments RpcOk {A} a.
Arguments RpcError {A} message.

(** A function that awaits the connection: [getBalance] gives the lamports,
    [getConfirmedSignaturesForAddress2] the signatures found. *)
Inductive Chain (A : Type) :=
| ChainReturn (a : A)
| GetBalance (k : RpcResult float → Chain A)
| GetSignatures (limit : nat) (k : RpcResult (list string) → Chain A).
Arguments ChainReturn {A} a.
Arguments GetBalance {A} k.
Arguments GetSignatures {A} limit k.

Inductive ChainEvent :=
| AskedBalance
| AskedSignatures (limit : nat).

Fixpoint run_chain {A} (balance : RpcResult float)
    (signatures : RpcResult (list string)) (m : Chain A)
  : A * list ChainEvent :=
  match m with
  | ChainReturn a => (a, [])
  | GetBalance k =>
      let '(a, trace) := run_chain balance signatures (k balance) in
      (a, AskedBalance :: trace)
  | GetSignatures limit k =>
      let '(a, trace) := run_chain balance signatures (k signatures) in
      (a, AskedSignatures limit :: trace)
  end.

(** [address] is [wallet.publicKey.toBase58()]; the constant
    [LAMPORTS_PER_SOL] of the Solana library is a parameter. *)
Definition getWalletStats (LAMPORTS_PER_SOL : float) (address : string)
    (RPC_URL : option string) : Chain WalletStats.t :=
  let failed message :=
    {| WalletStats.address := address;
       WalletStats.balance_sol := 0;
       WalletStats.recent_transactions := None;
       WalletStats.network := None;
       WalletStats.error := Some message |} in
  GetBalance (λ answer,
    match answer with
    | RpcError message => ChainReturn (failed message)
    | RpcOk balance =>
        GetSignatures 5 (λ answer,
          match answer with
          | RpcError message => ChainReturn (failed message)
          | RpcOk recentTxs =>
              ChainReturn
                {| WalletStats.address := address;
                   WalletStats.balance_sol :=
                     PrimFloat.div balance LAMPORTS_PER_SOL;
                   WalletStats.recent_transactions := Some (length recentTxs);
                   WalletStats.network := Some (network_label RPC_URL);
                   WalletStats.error := None |}
          end)
    end).

(** ** Vocabulary of the properties *)

(** The three scores of the rule table. *)
Definition rule_confidence (o : AlphaOpportunity.t) : Prop :=
  AlphaOpportunity.confidence o = 0.85
  ∨ AlphaOpportunity.confidence o = 0.6
  ∨ AlphaOpportunity.confidence o = 0.4.

(** [a] may stand before [b] in a list in descending order of confidence. *)
Definition confidence_ge (a b : AlphaOpportunity.t) : Prop :=
  PrimFloat.leb (AlphaOpportunity.confidence b) (AlphaOpportunity.confidence a) = true.

(** The reasoning templates, as the specification words them:
    ["{name} is a high-confidence accelerating narrative with {N} supporting
    signals. {explanation}"] and
    ["{name} showing {direction, lower-cased} trend. {explanation}"]. *)
Definition accumulate_template (name : string) (N : nat) (explanation : string)
  : string :=
  String.concat ""
    [name; " is a high-confidence accelerating narrative with "; pretty N;
     " supporting signals. "; explanation].

Definition medium_template (name direction_lower explanation : string)
  : string :=
  String.concat "" [name; " showing "; direction_lower; " trend. "; explanation].

(** The URL [fetchNarratives] requests. *)
Definition radar_endpoint (NARRATIVE_RADAR_URL : option string) : string :=
  env_or NARRATIVE_RADAR_URL
    "https://solana-narrative-radar-8vsib.ondigitalocean.app"
  +:+ "/api/narratives".

(** The expected payload: an object whose [narratives] is an array. *)
Definition expected_payload (data : Json) : Prop :=
  ∃ props items,
    data = JObject props
    ∧ own_property props "narratives" = Some (JArray items).

(** The failure modes the specification lists for the narrative fetch: the
    promise rejects (network failure, timeout), the status is not 2xx, or
    the body is not the expected payload. *)
Definition fetch_failure (answer : option Response) : Prop :=
  match answer with
  | None => True
  | Some resp =>
      ¬ (200 ≤ status resp < 300)%Z
      ∨ match body resp with
        | None => True
        | Some data => ¬ expected_payload data
        end
  end.

(** The answers that carry no narratives at all: the promise rejects, the
    body is not JSON, or the parsed body is not an object with a truthy
    [narratives] property. *)
Definition no_narratives (answer : option Response) : Prop :=
  match answer with
  | None => True
  | Some resp =>
      match body resp with
      | None => True
      | Some data =>
          ¬ ∃ props field,
              data = JObject props
              ∧ own_property props "narratives" = Some field
              ∧ truthy field = true
      end
  end.

(** The rows of the rule table, as tests on a narrative. *)
Definition is_high_accelerating (n : Narrative.t) : bool :=
  String.eqb (Narrative.confidence n) "HIGH"
  && String.eqb (Narrative.direction n) "ACCELERATING".

Definition is_medium_accelerating (n : Narrative.t) : bool :=
  String.eqb (Narrative.confidence n) "MEDIUM"
  && String.eqb (Narrative.direction n) "ACCELERATING".

Definition is_medium_other (n : Narrative.t) : bool :=
  String.eqb (Narrative.confidence n) "MEDIUM"
  && negb (String.eqb (Narrative.direction n) "ACCELERATING").

Definition matches_a_rule (n : Narrative.t) : bool :=
  is_high_accelerating n || String.eqb (Narrative.confidence n) "MEDIUM".

(** The URL [getTokenPrices] requests. *)
Definition prices_endpoint (mints : list string) : string :=
  "https://api.jup.ag/price/v2?ids=" +:+ String.concat "," mints.

(** The answers that carry no price data: the promise rejects, the body is
    not JSON, or the parsed body is not an object with a truthy [data]
    property. *)
Definition no_price_data (answer : option Response) : Prop :=
  match answer with
  | None => True
  | Some resp =>
      match body resp with
      | None => True
      | Some data =>
          ¬ ∃ props field,
              data = JObject props
              ∧ own_property props "data" = Some field
              ∧ truthy field = true
      end
  end.

(** What the loop stores for an entry [info] that is not [null]: its truthy
    [price], otherwise [0]. *)
Definition entry_price (info : Json) : Json :=
  match info with
  | JObject fields => or_else (own_property fields "price") (JNumber 0)
  | _ => JNumber 0
  end.

(** ** Sample inputs *)

Definition sample (name confidence direction : string)
    (signals : option (list string)) : Narrative.t :=
  {| Narrative.name := name; Narrative.confidence := confidence;
     Narrative.direction := direction; Narrative.explanation := "x";
     Narrative.ideas := []; Narrative.supporting_signals := signals |}.

Definition n_defi : Narrative.t :=
  sample "DeFi" "HIGH" "ACCELERATING" (Some ["a"; "b"]).
Definition n_staking : Narrative.t :=
  sample "Staking" "MEDIUM" "ACCELERATING" (Some ["a"]).
Definition n_rwa : Narrative.t := sample "RWA" "MEDIUM" "STABLE" None.
Definition n_memecoins : Narrative.t :=
  sample "Memecoins" "MEDIUM" "DECLINING" (Some []).
Definition n_trading : Narrative.t :=
  sample "Trading" "LOW" "ACCELERATING" (Some ["a"]).
Definition n_constructor : Narrative.t :=
  sample "constructor" "MEDIUM" "ACCELERATING" (Some []).

Definition o_defi : AlphaOpportunity.t :=
  {| AlphaOpportunity.narrative := "DeFi";
     AlphaOpportunity.action := "ACCUMULATE";
     AlphaOpportunity.tokens :=
       TokenArray ["JUPyiwrYJFskUPiHa7hkeR8VUtAeFoSYbKedZNsDvCN";
                   "DezXAZ8z7PnrnRJjz3wXBoRgixCa6xjnB7YaB1pPB263"];
     AlphaOpportunity.reasoning :=
       "DeFi is a high-confidence accelerating narrative with 2 supporting signals. x";
     AlphaOpportunity.confidence := 0.85;
     AlphaOpportunity.risk := MEDIUM;
     AlphaOpportunity.suggested_allocation := "5-10% of portfolio" |}.

(** A network on which every request fails. *)
Definition unreachable : string → option Response := λ _, None.

(** A network that answers every request with status 503 and a payload of
    the expected shape. *)
Definition answers_503 : string → option Response := λ _,
  Some {| status := 503;
          body := Some (JObject
            [("narratives", JArray [JObject [("name", JString "DeFi")]])]) |}.

(** A price answer whose second entry is [null]: reading its [price]
    throws. *)
Definition answers_prices : string → option Response := λ _,
  Some {| status := 200;
          body := Some (JObject
            [("data", JObject
               [("A", JObject [("price", JNumber 2)]);
                ("B", JNull);
                ("C", JObject [("price", JNumber 3)])])]) |}.

Definition is_watchlist (o : AlphaOpportunity.t) : bool :=
  String.eqb (AlphaOpportunity.action o) "WATCHLIST".

(** An engine for the examples: the texts V8 gives for the members of
    [Object.prototype]; no example has a number as large as [10^21]. *)
Definition sample_engine : Engine :=
  {| member_text key :=
       if String.eqb key "__proto__" then "[object Object]"
       else if String.eqb key "constructor"
            then "function Object() { [native code] }"
            else "function " +:+ key +:+ "() { [native code] }";
     large_number_text _ := "" |}.

(** The part of [answers_prices]'s entries before the [null] one, and the
    rest. *)
Definition entries_before_null : list (string * Json) :=
  [("A", JObject [("price", JNumber 2)])].
Definition entries_from_null : list (string * Json) :=
  [("B", JNull); ("C", JObject [("price", JNumber 3)])].

Definition jup_at_zero : gmap string Json :=
  {[ "JUPyiwrYJFskUPiHa7hkeR8VUtAeFoSYbKedZNsDvCN" := JNumber 0 ]}.

(** * Properties *)

Example findAlpha_defi : @findAlpha ascii_host [n_defi] = [o_defi].
Proof. vm_compute. reflexivity. Qed.

Example findAlpha_order :
  AlphaOpportunity.narrative <$>
    @findAlpha ascii_host [n_rwa; n_staking; n_trading; n_memecoins; n_defi]
  = ["DeFi"; "Staking"; "RWA"; "Memecoins"].
Proof. vm_compute. reflexivity. Qed.

Example findAlpha_empty : @findAlpha ascii_host [] = [].
Proof. reflexivity. Qed.

(** ** The sort *)

Section ArraySortFacts.
Context {A : Type} (comparator : A → A → float).
Local Abbreviation after := (sorts_after comparator).
Local Abbreviation insert_ := (sort_insert comparator).
Local Abbreviation sort := (Array_sort comparator).

Lemma sort_insert_perm x l : insert_ x l ≡ₚ x :: l.
Proof.
  induction l as [|y l IH]; simpl; [done|].
  destruct (after x y); [|done].
  rewrite IH. apply Permutation_swap.
Qed.

Lemma Array_sort_perm l : sort l ≡ₚ l.
Proof.
  induction l as [|x l IH]; simpl; [done|].
  by rewrite sort_insert_perm, IH.
Qed.

Lemma Array_sort_length l : length (sort l) = length l.
Proof. by rewrite Array_sort_perm. Qed.

Lemma Array_sort_elem x l : x ∈ sort l ↔ x ∈ l.
Proof. by rewrite Array_sort_perm. Qed.

(** Stability: a selection of elements none of which sorts after another
    comes out in the order it went in. *)
Lemma sort_insert_filter (p : A → bool) x l :
  (∀ y, y ∈ l → p x → p y → after x y = false) →
  filter p (insert_ x l) = filter p (x :: l).
Proof.
  induction l as [|y l IH]; intros Htie; simpl; [done|].
  destruct (after x y) eqn:Hxy; [|done].
  rewrite filter_cons, IH by (intros z Hz; apply Htie; by right).
  rewrite !filter_cons.
  destruct (decide (p y)) as [Py|], (decide (p x)) as [Px|]; try done.
  rewrite (Htie y) in Hxy; [done|by left|done..].
Qed.

Lemma Array_sort_stable (p : A → bool) l :
  (∀ x y, x ∈ l → y ∈ l → p x → p y → after x y = false) →
  filter p (sort l) = filter p l.
Proof.
  induction l as [|x l IH]; intros Htie; simpl; [done|].
  rewrite sort_insert_filter.
  - rewrite !filter_cons, IH; [done|].
    intros ????; apply Htie; by right.
  - intros y Hy. apply Htie; [by left|].
    right. by apply Array_sort_elem.
Qed.

(** On a domain [P] where the comparator is a consistent one, the result
    is ordered: no element sorts after a later one. *)
Section Ordered.
Variable P : A → Prop.
Hypothesis after_asym : ∀ x y, P x → P y → after x y = true → after y x = false.
Hypothesis not_after_trans : ∀ x y z, P x → P y → P z →
  after x y = false → after y z = false → after x z = false.

Lemma sort_insert_sorted x l :
  P x → Forall P l →
  StronglySorted (λ a b, after a b = false) l →
  StronglySorted (λ a b, after a b = false) (insert_ x l).
Proof.
  intros Px HP Hs. induction Hs as [|y l Hs IH Hy]; simpl.
  - repeat constructor.
  - apply Forall_cons in HP as [Py HP].
    destruct (after x y) eqn:Hxy.
    + constructor; [by apply IH|].
      rewrite sort_insert_perm. constructor; [by apply after_asym|done].
    + constructor; [by constructor|].
      constructor; [done|].
      rewrite Forall_forall in Hy, HP. apply Forall_forall.
      intros z Hz. apply (not_after_trans x y z); auto.
Qed.

Lemma Array_sort_sorted l :
  Forall P l → StronglySorted (λ a b, after a b = false) (sort l).
Proof.
  induction 1 as [|x l Px HP IH]; simpl; [constructor|].
  apply sort_insert_sorted; [done| |done].
  by rewrite Array_sort_perm.
Qed.

Lemma after_irrefl x : P x → after x x = false.
Proof.
  intros Px. destruct (after x x) eqn:E; [|done].
  by rewrite (after_asym x x Px Px E) in E.
Qed.

Lemma sorted_head_not_after x l y :
  P x → StronglySorted (λ a b, after a b = false) (x :: l) →
  y ∈ x :: l → after x y = false.
Proof.
  intros Px Hs [->|Hy]%elem_of_cons; [by apply after_irrefl|].
  apply StronglySorted_inv in Hs as [_ Hx].
  rewrite Forall_forall in Hx. by apply Hx.
Qed.

(** The result does not depend on the algorithm: an ordered rearrangement
    that keeps the order within every class of tied elements is the list
    [Array_sort] returns. *)
Lemma sorted_stable_unique s1 s2 :
  Forall P s1 → s1 ≡ₚ s2 →
  StronglySorted (λ a b, after a b = false) s1 →
  StronglySorted (λ a b, after a b = false) s2 →
  (∀ x, x ∈ s1 →
     filter (λ y, tied comparator x y) s1 = filter (λ y, tied comparator x y) s2) →
  s1 = s2.
Proof.
  revert s2. induction s1 as [|x t IH]; intros s2 HP Hperm Hs1 Hs2 Hcls.
  { by apply Permutation_nil_l in Hperm. }
  destruct s2 as [|x' t']; [by apply Permutation_nil_r in Hperm|].
  pose proof HP as HP'. apply Forall_cons in HP' as [Px HPt].
  assert (P x') as Px'.
  { rewrite Forall_forall in HP. apply HP. rewrite Hperm. by left. }
  assert (tied comparator x x' = true) as Htie.
  { unfold tied.
    rewrite (sorted_head_not_after x t x'), (sorted_head_not_after x' t' x);
      try done.
    - rewrite <-Hperm. by left.
    - rewrite Hperm. by left. }
  assert (tied comparator x x = true) as Hrefl.
  { unfold tied. by rewrite after_irrefl. }
  assert (x' = x) as ->.
  { specialize (Hcls x ltac:(by left)). rewrite !filter_cons in Hcls.
    rewrite decide_True in Hcls by by rewrite Hrefl.
    rewrite decide_True in Hcls by by rewrite Htie.
    congruence. }
  f_equal. apply IH; try done.
  - by apply Permutation_cons_inv in Hperm.
  - by apply StronglySorted_inv in Hs1 as [? _].
  - by apply StronglySorted_inv in Hs2 as [? _].
  - intros y Hy. specialize (Hcls y ltac:(by right)).
    rewrite !filter_cons in Hcls. case_decide; congruence.
Qed.

Lemma Array_sort_unique l s :
  Forall P l → s ≡ₚ l →
  StronglySorted (λ a b, after a b = false) s →
  (∀ x, x ∈ l →
     filter (λ y, tied comparator x y) s = filter (λ y, tied comparator x y) l) →
  s = sort l.
Proof.
  intros HP Hperm Hs Hcls. apply sorted_stable_unique.
  - by rewrite Hperm.
  - by rewrite Array_sort_perm.
  - done.
  - by apply Array_sort_sorted.
  - intros x Hx. rewrite Hperm in Hx. rewrite Hcls by done.
    symmetry. apply Array_sort_stable. intros a b Ha Hb Ta Tb.
    rewrite Forall_forall in HP.
    unfold tied in Ta, Tb.
    apply andb_prop_elim in Ta as [Ta1 Ta2], Tb as [Tb1 Tb2].
    apply negb_prop_elim, Is_true_false in Ta1, Ta2, Tb1, Tb2.
    apply (not_after_trans a x b); auto.
Qed.
End Ordered.
End ArraySortFacts.

(** ** The scorer *)

Section FindAlphaFacts.
Context `{Host}.

Lemma findAlpha_step_emitted acc n : findAlpha_step acc n = acc ++ emitted n.
Proof.
  unfold emitted, findAlpha_step.
  repeat case_match; simpl; by rewrite ?app_nil_r.
Qed.

(** The loop pushes, narrative by narrative, what each one emits. *)
Lemma pushed_bind ns acc :
  foldl findAlpha_step acc ns = acc ++ (ns ≫= emitted).
Proof.
  revert acc. induction ns as [|n ns IH]; intros acc; simpl.
  - by rewrite app_nil_r.
  - by rewrite IH, findAlpha_step_emitted, app_assoc.
Qed.

Lemma findAlpha_sorted_pushes ns :
  findAlpha ns = Array_sort by_confidence_desc (ns ≫= emitted).
Proof. unfold findAlpha. by rewrite pushed_bind. Qed.

Lemma findAlpha_perm ns : findAlpha ns ≡ₚ ns ≫= emitted.
Proof. rewrite findAlpha_sorted_pushes. apply Array_sort_perm. Qed.

Lemma findAlpha_one_more n o l1 l2 :
  emitted n = [o] → findAlpha (l1 ++ n :: l2) ≡ₚ o :: findAlpha (l1 ++ l2).
Proof.
  intros Hn. rewrite !findAlpha_perm, !bind_app, bind_cons, Hn. simpl.
  by rewrite Permutation_middle.
Qed.

Lemma findAlpha_none n l1 l2 :
  emitted n = [] → findAlpha (l1 ++ n :: l2) = findAlpha (l1 ++ l2).
Proof.
  intros Hn. by rewrite !findAlpha_sorted_pushes, !bind_app, bind_cons, Hn.
Qed.

Lemma elem_of_findAlpha o ns :
  o ∈ findAlpha ns ↔ ∃ n, n ∈ ns ∧ o ∈ emitted n.
Proof.
  rewrite findAlpha_perm, list_elem_of_bind.
  split; intros (n & ? & ?); by exists n.
Qed.

Lemma emitted_length n : (length (emitted n) ≤ 1)%nat.
Proof. unfold emitted, findAlpha_step. repeat case_match; simpl; lia. Qed.

Lemma bind_emitted_length ns : (length (ns ≫= emitted) ≤ length ns)%nat.
Proof.
  induction ns as [|n ns IH]; [done|].
  rewrite bind_cons, length_app. pose proof (emitted_length n). simpl. lia.
Qed.

(** C1: a narrative with confidence HIGH and direction ACCELERATING makes
    the loop push exactly one opportunity, so that the result of the scorer
    holds that one opportunity more than without the narrative; its action
    is ACCUMULATE, its confidence 0.85, its risk MEDIUM and its allocation
    "5-10% of portfolio". *)
Theorem high_accelerating_accumulate n acc l1 l2 :
  Narrative.confidence n = "HIGH" →
  Narrative.direction n = "ACCELERATING" →
  ∃ o,
    findAlpha_step acc n = acc ++ [o]
    ∧ findAlpha (l1 ++ n :: l2) ≡ₚ o :: findAlpha (l1 ++ l2)
    ∧ AlphaOpportunity.action o = "ACCUMULATE"
    ∧ AlphaOpportunity.confidence o = 0.85
    ∧ AlphaOpportunity.risk o = MEDIUM
    ∧ AlphaOpportunity.suggested_allocation o = "5-10% of portfolio".
Proof.
  intros Hc Hd.
  assert (∃ o, emitted n = [o]
    ∧ AlphaOpportunity.action o = "ACCUMULATE"
    ∧ AlphaOpportunity.confidence o = 0.85
    ∧ AlphaOpportunity.risk o = MEDIUM
    ∧ AlphaOpportunity.suggested_allocation o = "5-10% of portfolio")
    as (o & He & ?).
  { unfold emitted, findAlpha_step. rewrite Hc, Hd. simpl. eauto 10. }
  exists o. rewrite findAlpha_step_emitted, He.
  split; [done|]. split; [by apply findAlpha_one_more|done].
Qed.

(** C2: a narrative with confidence MEDIUM makes the loop push exactly one
    opportunity, of risk LOW: with direction ACCELERATING its action is DCA,
    its confidence 0.6 and its allocation "2-5% of portfolio"; with any
    other direction its action is WATCHLIST, its confidence 0.4 and its
    allocation "Watch only". *)
Theorem medium_dca_or_watchlist n acc l1 l2 :
  Narrative.confidence n = "MEDIUM" →
  ∃ o,
    findAlpha_step acc n = acc ++ [o]
    ∧ findAlpha (l1 ++ n :: l2) ≡ₚ o :: findAlpha (l1 ++ l2)
    ∧ AlphaOpportunity.risk o = LOW
    ∧ (Narrative.direction n = "ACCELERATING" →
         AlphaOpportunity.action o = "DCA"
         ∧ AlphaOpportunity.confidence o = 0.6
         ∧ AlphaOpportunity.suggested_allocation o = "2-5% of portfolio")
    ∧ (Narrative.direction n ≠ "ACCELERATING" →
         AlphaOpportunity.action o = "WATCHLIST"
         ∧ AlphaOpportunity.confidence o = 0.4
         ∧ AlphaOpportunity.suggested_allocation o = "Watch only").
Proof.
  intros Hc.
  assert (∃ o, emitted n = [o]
    ∧ AlphaOpportunity.risk o = LOW
    ∧ AlphaOpportunity.action o =
        (if String.eqb (Narrative.direction n) "ACCELERATING"
         then "DCA" else "WATCHLIST")
    ∧ AlphaOpportunity.confidence o =
        (if String.eqb (Narrative.direction n) "ACCELERATING"
         then 0.6 else 0.4)
    ∧ AlphaOpportunity.suggested_allocation o =
        (if String.eqb (Narrative.direction n) "ACCELERATING"
         then "2-5% of portfolio" else "Watch only"))
    as (o & He & Hr & Ha & Hconf & Hs).
  { unfold emitted, findAlpha_step. rewrite Hc. simpl. eauto 10. }
  exists o. rewrite findAlpha_step_emitted, He, Ha, Hconf, Hs.
  split; [done|]. split; [by apply findAlpha_one_more|]. split; [done|].
  split.
  - intros ->. done.
  - intros Hd%String.eqb_neq. by rewrite Hd.
Qed.

(** C3: a narrative that is neither (HIGH, ACCELERATING) nor of confidence
    MEDIUM (so: LOW, an unrecognized confidence, or HIGH with another
    direction) makes the loop push nothing, and the result of the scorer is
    the same as without that narrative. *)
Theorem unmatched_no_opportunity n acc l1 l2 :
  ¬ (Narrative.confidence n = "HIGH"
     ∧ Narrative.direction n = "ACCELERATING") →
  Narrative.confidence n ≠ "MEDIUM" →
  findAlpha_step acc n = acc
  ∧ emitted n = []
  ∧ findAlpha (l1 ++ n :: l2) = findAlpha (l1 ++ l2).
Proof.
  intros Hh Hm%String.eqb_neq.
  assert (emitted n = []) as He.
  { unfold emitted, findAlpha_step. rewrite Hm.
    destruct (String.eqb (Narrative.confidence n) "HIGH") eqn:E1;
      destruct (String.eqb (Narrative.direction n) "ACCELERATING") eqn:E2;
      simpl; try done.
    apply String.eqb_eq in E1, E2. by destruct Hh. }
  rewrite findAlpha_step_emitted, He, app_nil_r.
  split; [done|]. split; [done|]. by apply findAlpha_none.
Qed.
End FindAlphaFacts.

(** ** Order of the result *)

Lemma StronglySorted_weaken {A} (P : A → Prop) (R1 R2 : A → A → Prop) l :
  Forall P l →
  (∀ a b, P a → P b → R1 a b → R2 a b) →
  StronglySorted R1 l → StronglySorted R2 l.
Proof.
  intros HP Himp Hs. induction Hs as [|x l Hs IH Hx]; [constructor|].
  apply Forall_cons in HP as [Px HP]. constructor; [by apply IH|].
  rewrite Forall_forall in Hx, HP. apply Forall_forall.
  intros y Hy. apply Himp; auto.
Qed.

Ltac by_rule_confidence :=
  unfold rule_confidence, confidence_ge, sorts_after, by_confidence_desc;
  intros;
  repeat match goal with
    | D : _ ∨ _ |- _ => destruct D
    end;
  repeat match goal with
    | E : AlphaOpportunity.confidence _ = _ |- _ => rewrite E in *; clear E
    end;
  vm_compute in *; congruence.

Lemma confidence_after_asym a b :
  rule_confidence a → rule_confidence b →
  sorts_after by_confidence_desc a b = true →
  sorts_after by_confidence_desc b a = false.
Proof. by_rule_confidence. Qed.

Lemma confidence_not_after_trans a b c :
  rule_confidence a → rule_confidence b → rule_confidence c →
  sorts_after by_confidence_desc a b = false →
  sorts_after by_confidence_desc b c = false →
  sorts_after by_confidence_desc a c = false.
Proof. by_rule_confidence. Qed.

Lemma confidence_not_after_ge a b :
  rule_confidence a → rule_confidence b →
  sorts_after by_confidence_desc a b = false → confidence_ge a b.
Proof. by_rule_confidence. Qed.

Lemma confidence_tie_not_after a b :
  rule_confidence a →
  AlphaOpportunity.confidence a = AlphaOpportunity.confidence b →
  sorts_after by_confidence_desc a b = false.
Proof.
  intros Ha Hab. unfold sorts_after, by_confidence_desc. rewrite <-Hab.
  revert Ha. by_rule_confidence.
Qed.

Section FindAlphaOrder.
Context `{Host}.

Lemma emitted_rule_confidence n o : o ∈ emitted n → rule_confidence o.
Proof.
  unfold emitted, findAlpha_step, rule_confidence.
  repeat case_match; simpl; intros Ho; try by apply elem_of_nil in Ho.
  all: apply list_elem_of_singleton in Ho as ->; simpl; auto.
Qed.

Lemma pushed_rule_confidence ns : Forall rule_confidence (ns ≫= emitted).
Proof.
  apply Forall_forall. intros o (n & Ho & _)%list_elem_of_bind.
  by eapply emitted_rule_confidence.
Qed.

(** C4: the list the scorer returns is in descending order of confidence,
    and opportunities of equal confidence keep the order of the narratives
    that produced them: selecting, with any test [p] that picks among the
    produced opportunities only ones of one and the same confidence, gives
    the same list from the result as from the opportunities in the order of
    their narratives. *)
Theorem findAlpha_sorted_stable ns :
  StronglySorted confidence_ge (findAlpha ns)
  ∧ ∀ p : AlphaOpportunity.t → bool,
      (∀ a b, a ∈ ns ≫= emitted → b ∈ ns ≫= emitted → p a → p b →
         AlphaOpportunity.confidence a = AlphaOpportunity.confidence b) →
      filter p (findAlpha ns) = filter p (ns ≫= emitted).
Proof.
  rewrite findAlpha_sorted_pushes.
  pose proof (pushed_rule_confidence ns) as Hrule. split.
  - eapply (StronglySorted_weaken rule_confidence).
    + by rewrite Array_sort_perm.
    + apply confidence_not_after_ge.
    + apply (Array_sort_sorted _ rule_confidence);
        [apply confidence_after_asym|apply confidence_not_after_trans|done].
  - intros p Htie. apply Array_sort_stable.
    intros a b Ha Hb Pa Pb. rewrite Forall_forall in Hrule.
    apply confidence_tie_not_after; auto.
Qed.

(** Whatever algorithm the engine runs, the scorer returns this list: it is
    the only ordered rearrangement of the pushed opportunities that keeps
    the order within each class of ties. *)
Lemma findAlpha_unique ns s :
  s ≡ₚ ns ≫= emitted →
  StronglySorted (λ a b, sorts_after by_confidence_desc a b = false) s →
  (∀ x, x ∈ ns ≫= emitted →
     filter (λ y, tied by_confidence_desc x y) s
     = filter (λ y, tied by_confidence_desc x y) (ns ≫= emitted)) →
  s = findAlpha ns.
Proof.
  rewrite findAlpha_sorted_pushes.
  apply (Array_sort_unique _ rule_confidence);
    [apply confidence_after_asym|apply confidence_not_after_trans
    |apply pushed_rule_confidence].
Qed.

(** C6: every opportunity of the result carries the reasoning text of its
    template, filled from the narrative that produced it: the ACCUMULATE
    text with the number of supporting signals (0 when the field is
    missing), or, for a narrative of confidence MEDIUM, the text with the
    lower-cased direction. *)
Theorem reasoning_verbatim ns o :
  o ∈ findAlpha ns →
  ∃ n, n ∈ ns ∧ o ∈ emitted n ∧
    ((Narrative.confidence n = "HIGH"
      ∧ AlphaOpportunity.action o = "ACCUMULATE"
      ∧ AlphaOpportunity.reasoning o =
          accumulate_template (Narrative.name n)
            (from_option length 0%nat (Narrative.supporting_signals n))
            (Narrative.explanation n))
     ∨ (Narrative.confidence n = "MEDIUM"
        ∧ (AlphaOpportunity.action o = "DCA"
           ∨ AlphaOpportunity.action o = "WATCHLIST")
        ∧ AlphaOpportunity.reasoning o =
            medium_template (Narrative.name n)
              (toLowerCase (Narrative.direction n))
              (Narrative.explanation n))).
Proof.
  intros (n & Hn & Ho)%elem_of_findAlpha. exists n.
  split; [done|]. split; [done|].
  revert Ho. unfold emitted, findAlpha_step.
  destruct (String.eqb (Narrative.confidence n) "HIGH") eqn:E1;
    [destruct (String.eqb (Narrative.direction n) "ACCELERATING") eqn:E2|];
    simpl.
  - intros ->%list_elem_of_singleton. left.
    apply String.eqb_eq in E1. split; [done|]. split; [done|].
    unfold signals_count. by destruct (Narrative.supporting_signals n).
  - destruct (String.eqb (Narrative.confidence n) "MEDIUM") eqn:E3;
      [|by intros ?%elem_of_nil].
    apply String.eqb_eq in E1, E3. congruence.
  - destruct (String.eqb (Narrative.confidence n) "MEDIUM") eqn:E3;
      [|by intros ?%elem_of_nil].
    intros ->%list_elem_of_singleton. right. apply String.eqb_eq in E3.
    split; [done|]. simpl. split; [case_match; auto|done].
Qed.

Lemma emitted_narrative n o :
  o ∈ emitted n → AlphaOpportunity.narrative o = Narrative.name n.
Proof.
  unfold emitted, findAlpha_step.
  repeat case_match; simpl; intros Ho; try by apply elem_of_nil in Ho.
  all: by apply list_elem_of_singleton in Ho as ->.
Qed.

(** C10: a narrative makes the loop push at most one opportunity, the
    result is a rearrangement of what was pushed and so is never longer
    than the input, and every opportunity of the result names, letter for
    letter, the narrative that produced it. *)
Theorem at_most_one_per_narrative ns :
  (∀ n acc, ∃ pushed,
      findAlpha_step acc n = acc ++ pushed ∧ (length pushed ≤ 1)%nat)
  ∧ findAlpha ns ≡ₚ ns ≫= emitted
  ∧ (length (findAlpha ns) ≤ length ns)%nat
  ∧ ∀ o, o ∈ findAlpha ns →
      ∃ n, n ∈ ns ∧ o ∈ emitted n
           ∧ AlphaOpportunity.narrative o = Narrative.name n.
Proof.
  split; [|split; [|split]].
  - intros n acc. exists (emitted n).
    split; [apply findAlpha_step_emitted|apply emitted_length].
  - apply findAlpha_perm.
  - rewrite findAlpha_perm. apply bind_emitted_length.
  - intros o (n & Hn & Ho)%elem_of_findAlpha. exists n.
    split; [done|]. split; [done|]. by apply emitted_narrative.
Qed.
End FindAlphaOrder.

(** ** The narrative fetch *)

Lemma run_fetchNarratives env network :
  (run network (fetchNarratives env)).1 =
  Normal match network (radar_endpoint env) with
         | Some {| body := Some (JObject props) |} =>
             or_else (own_property props "narratives") (JArray [])
         | _ => JArray []
         end.
Proof.
  unfold fetchNarratives, radar_endpoint. simpl.
  destruct (network _) as [[st [data|]]|]; simpl; try done.
  destruct data; simpl; done.
Qed.

(** C7, as amended: [fetchNarratives] never throws to its caller, whatever
    the network answers.  It returns the empty array when the fetch
    rejects, when the body is not JSON, and when the parsed body is not an
    object with a truthy [narratives] property.  The status of the response
    is not looked at: the array of a payload of the expected shape is
    returned whatever the status is. *)
Theorem fetchNarratives_absorbs env network :
  ∃ v,
    (run network (fetchNarratives env)).1 = Normal v
    ∧ (no_narratives (network (radar_endpoint env)) → v = JArray [])
    ∧ (∀ resp props items,
         network (radar_endpoint env) = Some resp →
         body resp = Some (JObject props) →
         own_property props "narratives" = Some (JArray items) →
         v = JArray items).
Proof.
  eexists. split; [apply run_fetchNarratives|]. split.
  - unfold no_narratives.
    destruct (network _) as [[st [data|]]|]; simpl; try done.
    destruct data as [| | | | |props]; try done.
    intros Hno. unfold or_else.
    destruct (own_property props "narratives") as [field|] eqn:E; [|done].
    destruct (truthy field) eqn:T; [|done].
    destruct Hno. by exists props, field.
  - intros [st b] props items -> Hb Hp. simpl in Hb. subst b.
    by rewrite Hp.
Qed.

(** ** The price client *)

(** C9: called with no token identifier, [getTokenPrices] is the program
    that returns the empty map at once: it has no [fetch] in it, and run
    against any network it returns the empty map and leaves an empty
    trace. *)
Theorem getTokenPrices_empty :
  getTokenPrices [] = Return (Normal ∅)
  ∧ ∀ network, run network (getTokenPrices []) = (Normal ∅, []).
Proof. split; [reflexivity|]. intros network. reflexivity. Qed.

(** With at least one identifier there is exactly one request, and still
    no exception. *)
Lemma getTokenPrices_requests network mint mints :
  ∃ prices,
    run network (getTokenPrices (mint :: mints)) =
    (Normal prices,
     [Requested ("https://api.jup.ag/price/v2?ids="
                 +:+ String.concat "," (mint :: mints))]).
Proof.
  unfold getTokenPrices.
  rewrite bool_decide_eq_false_2 by (simpl; lia).
  cbn -[String.append String.concat set_prices].
  destruct (network _) as [[st [data|]]|];
    cbn -[String.append String.concat set_prices]; eauto.
  destruct data as [| | | | |props];
    cbn -[String.append String.concat set_prices]; eauto.
  unfold or_else.
  destruct (own_property props "data") as [field|]; [|eauto].
  destruct (truthy field) eqn:T; [|eauto].
  destruct field; try discriminate;
    cbn -[String.append String.concat set_prices]; eauto.
Qed.

(** What was set before a throw in the loop is kept. *)
Example getTokenPrices_partial :
  match run answers_prices (getTokenPrices ["A"; "B"; "C"]) with
  | (Normal prices, _) => (prices !! "A", prices !! "B", prices !! "C")
  | _ => (None, None, None)
  end = (Some (JNumber 2), None, None).
Proof. vm_compute. reflexivity. Qed.

(** ** Enrichment with prices *)

Lemma fromEntries_lookup {V} (f : string → V) ids (m : gmap string V) t :
  foldl (λ obj kv, <[kv.1 := kv.2]> obj) m ((λ t, (t, f t)) <$> ids) !! t =
  if decide (t ∈ ids) then Some (f t) else m !! t.
Proof.
  revert m. induction ids as [|i ids IH]; intros m.
  - by rewrite decide_False by apply not_elem_of_nil.
  - rewrite fmap_cons. cbn [foldl fst snd].
    rewrite IH. destruct (decide (t ∈ ids)) as [Hin|Hnin].
    + by rewrite decide_True by (by right).
    + destruct (decide (i = t)) as [->|Hne].
      * rewrite lookup_insert_eq. by rewrite decide_True by (by left).
      * rewrite lookup_insert_ne by done.
        rewrite decide_False; [done|].
        intros [?|?]%elem_of_cons; congruence.
Qed.

Lemma Object_fromEntries_lookup {V} (f : string → V) ids t :
  Object_fromEntries ((λ t, (t, f t)) <$> ids) !! t =
  if decide (t ∈ ids) then Some (f t) else None.
Proof. unfold Object_fromEntries. by rewrite fromEntries_lookup. Qed.

Lemma Object_fromEntries_dom {V} (f : string → V) ids :
  dom (Object_fromEntries ((λ t, (t, f t)) <$> ids)) = list_to_set ids.
Proof.
  apply set_eq. intros t.
  rewrite elem_of_dom, Object_fromEntries_lookup, elem_of_list_to_set.
  case_decide; split; first [done | by intros [? ?] | by eexists].
Qed.

Lemma token_prices_of_array prices o ids :
  AlphaOpportunity.tokens o = TokenArray ids →
  token_prices_of prices o =
  Normal (Object_fromEntries ((λ t, (t, or_else (prices !! t) JNull)) <$> ids)).
Proof. unfold token_prices_of. by intros ->. Qed.

Lemma with_token_prices_cons prices o opportunities :
  with_token_prices prices (o :: opportunities) =
  match token_prices_of prices o with
  | Throw e => Throw e
  | Normal token_prices =>
      match with_token_prices prices opportunities with
      | Throw e => Throw e
      | Normal rest =>
          Normal ({| PricedOpportunity.opportunity := o;
                     PricedOpportunity.token_prices := token_prices |} :: rest)
      end
  end.
Proof.
  unfold with_token_prices. simpl.
  by destruct (token_prices_of prices o).
Qed.

(** C8, as amended: for opportunities whose [tokens] are arrays of
    identifiers, as their interface declares, and any price map, the
    enrichment never throws; it keeps every opportunity, in order, and
    gives each one a [token_prices] object whose keys are exactly its token
    identifiers; the value under an identifier is the price the map holds
    for it when that price is truthy, and [null] otherwise: when the map
    holds no price for it, and also when it holds a falsy one, such as the
    [0] the price client stores for a price it did not get. *)
Theorem token_prices_total (prices : gmap string Json) opportunities :
  Forall (λ o, ∃ ids, AlphaOpportunity.tokens o = TokenArray ids)
         opportunities →
  ∃ priced,
    with_token_prices prices opportunities = Normal priced
    ∧ PricedOpportunity.opportunity <$> priced = opportunities
    ∧ Forall (λ po, ∀ ids,
        AlphaOpportunity.tokens (PricedOpportunity.opportunity po)
          = TokenArray ids →
        dom (PricedOpportunity.token_prices po) = list_to_set ids
        ∧ ∀ t, t ∈ ids →
            ∃ v, PricedOpportunity.token_prices po !! t = Some v
              ∧ (prices !! t = None → v = JNull)
              ∧ (∀ price, prices !! t = Some price →
                   v = if truthy price then price else JNull)) priced.
Proof.
  induction 1 as [|o opps [ids Ho] _ (priced & Hrun & Hopps & Hall)].
  - exists []. by repeat split.
  - eexists (_ :: priced).
    rewrite with_token_prices_cons, (token_prices_of_array _ _ ids Ho), Hrun.
    split; [reflexivity|]. split; [rewrite fmap_cons; by rewrite Hopps|].
    constructor; [|done]. simpl. intros ids' Hids'.
    rewrite Ho in Hids'. injection Hids' as <-.
    split; [apply Object_fromEntries_dom|].
    intros t Ht. eexists.
    rewrite Object_fromEntries_lookup, decide_True by done.
    split; [reflexivity|]. split.
    + by intros ->.
    + by intros price ->.
Qed.

(** C8, as stated, fails: with the price [0] in the map for a token of an
    opportunity, the entry of that token is [null], not the price the map
    holds. *)
Lemma zero_price_entry_not_the_price :
  ¬ ∀ (prices : gmap string Json) opportunities,
      Forall (λ o, ∃ ids, AlphaOpportunity.tokens o = TokenArray ids)
             opportunities →
      ∃ priced,
        with_token_prices prices opportunities = Normal priced
        ∧ Forall (λ po, ∀ ids t,
            AlphaOpportunity.tokens (PricedOpportunity.opportunity po)
              = TokenArray ids →
            t ∈ ids →
            PricedOpportunity.token_prices po !! t
            = Some (default JNull (prices !! t))) priced.
Proof.
  intros Hclaim.
  destruct (Hclaim jup_at_zero [o_defi]) as (priced & Hrun & Hall).
  { constructor; [|constructor]. eexists. reflexivity. }
  rewrite with_token_prices_cons in Hrun.
  erewrite token_prices_of_array in Hrun by reflexivity.
  change (with_token_prices jup_at_zero [])
    with (Normal (@nil PricedOpportunity.t)) in Hrun.
  injection Hrun as <-.
  apply Forall_cons in Hall as [Hentry _].
  specialize (Hentry _ "JUPyiwrYJFskUPiHa7hkeR8VUtAeFoSYbKedZNsDvCN" eq_refl).
  cbn [PricedOpportunity.token_prices] in Hentry.
  specialize (Hentry ltac:(by left)). vm_compute in Hentry. discriminate.
Qed.

Example token_prices_zero_is_null :
  match with_token_prices
          {[ "JUPyiwrYJFskUPiHa7hkeR8VUtAeFoSYbKedZNsDvCN" := JNumber 0 ]}
          [o_defi] with
  | Normal [po] =>
      (PricedOpportunity.token_prices po
         !! "JUPyiwrYJFskUPiHa7hkeR8VUtAeFoSYbKedZNsDvCN",
       PricedOpportunity.token_prices po
         !! "DezXAZ8z7PnrnRJjz3wXBoRgixCa6xjnB7YaB1pPB263",
       PricedOpportunity.token_prices po !! "other")
  | _ => (None, None, None)
  end = (Some JNull, Some JNull, None).
Proof. vm_compute. reflexivity. Qed.

(** ** Token lookup *)

Section TokenLookup.
Context `{Host}.

Lemma emitted_tokens n o :
  o ∈ emitted n →
  AlphaOpportunity.tokens o =
  or_empty_array (get_tokens NARRATIVE_TOKENS (toLowerCase (Narrative.name n))).
Proof.
  unfold emitted, findAlpha_step.
  repeat case_match; simpl; intros Ho; try by apply elem_of_nil in Ho.
  all: by apply list_elem_of_singleton in Ho as ->.
Qed.

(** Names with the same lower-casing get the same tokens. *)
Lemma tokens_case_insensitive n1 n2 o1 o2 :
  toLowerCase (Narrative.name n1) = toLowerCase (Narrative.name n2) →
  o1 ∈ emitted n1 → o2 ∈ emitted n2 →
  AlphaOpportunity.tokens o1 = AlphaOpportunity.tokens o2.
Proof.
  intros Hk H1%emitted_tokens H2%emitted_tokens. by rewrite H1, H2, Hk.
Qed.

(** A key of the table gives its entry. *)
Lemma tokens_of_table_key n o ids :
  o ∈ emitted n →
  own_property NARRATIVE_TOKENS (toLowerCase (Narrative.name n)) = Some ids →
  AlphaOpportunity.tokens o = TokenArray ids.
Proof.
  intros ->%emitted_tokens Hk. unfold get_tokens. by rewrite Hk.
Qed.

(** A key that neither the table nor [Object.prototype] has gives the
    empty array. *)
Lemma tokens_of_missing_key n o :
  o ∈ emitted n →
  own_property NARRATIVE_TOKENS (toLowerCase (Narrative.name n)) = None →
  toLowerCase (Narrative.name n) ∉ Object_prototype_keys →
  AlphaOpportunity.tokens o = TokenArray [].
Proof.
  intros ->%emitted_tokens Hk Hp. unfold get_tokens.
  by rewrite Hk, bool_decide_eq_false_2.
Qed.

(** A key that only [Object.prototype] has gives the inherited member. *)
Lemma tokens_of_inherited_key n o :
  o ∈ emitted n →
  toLowerCase (Narrative.name n) ∈ Object_prototype_keys →
  AlphaOpportunity.tokens o = PrototypeMember (toLowerCase (Narrative.name n)).
Proof.
  intros ->%emitted_tokens Hp. unfold get_tokens.
  assert (own_property NARRATIVE_TOKENS (toLowerCase (Narrative.name n)) = None)
    as ->.
  { revert Hp. generalize (toLowerCase (Narrative.name n)). intros k Hk.
    unfold Object_prototype_keys in Hk.
    repeat (apply elem_of_cons in Hk as [->|Hk]; [reflexivity|]).
    by apply elem_of_nil in Hk. }
  by rewrite bool_decide_eq_true_2.
Qed.
End TokenLookup.

Example tokens_DeFi_defi :
  AlphaOpportunity.tokens <$>
    @findAlpha ascii_host [n_defi; sample "defi" "HIGH" "ACCELERATING" None]
  = [AlphaOpportunity.tokens o_defi; AlphaOpportunity.tokens o_defi].
Proof. vm_compute. reflexivity. Qed.

Example tokens_unknown_name :
  AlphaOpportunity.tokens <$>
    @findAlpha ascii_host [sample "Gaming" "MEDIUM" "STABLE" None]
  = [TokenArray []].
Proof. vm_compute. reflexivity. Qed.

(** C5, at the name "constructor": its lower-casing is not a key of the
    table, yet the lookup does not give the empty array.  It finds the
    member [constructor] that the table inherits from [Object.prototype],
    the scorer stores that value as the opportunity's [tokens], and the
    enrichment of the [/alpha] and [/analyze] handlers then throws a
    [TypeError]. *)
Theorem constructor_tokens_inherited :
  own_property NARRATIVE_TOKENS (@toLowerCase ascii_host "constructor") = None
  ∧ AlphaOpportunity.tokens <$> @findAlpha ascii_host [n_constructor]
    = [PrototypeMember "constructor"]
  ∧ with_token_prices ∅ (@findAlpha ascii_host [n_constructor])
    = Throw (TypeError "o.tokens.map is not a function").
Proof. repeat split; vm_compute; reflexivity. Qed.

(** ** The narrative fetch: what the status does not change *)

(** C7, as stated, fails: a response with status 503 is one of the listed
    failures, and its narratives are returned all the same. *)
Lemma non_2xx_payload_returned :
  ¬ ∀ env network,
      fetch_failure (network (radar_endpoint env)) →
      (run network (fetchNarratives env)).1 = Normal (JArray []).
Proof.
  intros Hclaim. specialize (Hclaim None answers_503).
  assert (fetch_failure (answers_503 (radar_endpoint None))) as Hfail.
  { left. simpl. lia. }
  apply Hclaim in Hfail. vm_compute in Hfail. discriminate.
Qed.

Example fetchNarratives_unreachable :
  run unreachable (fetchNarratives None) =
  (Normal (JArray []),
   [Requested "https://solana-narrative-radar-8vsib.ondigitalocean.app/api/narratives";
    Logged "Failed to fetch narratives:" FetchFailed]).
Proof. vm_compute. reflexivity. Qed.

(** ** The theorems at sample inputs *)

Lemma high_accelerating_accumulate_defi :
  Narrative.confidence n_defi = "HIGH"
  ∧ Narrative.direction n_defi = "ACCELERATING"
  ∧ ∃ o,
      @findAlpha_step ascii_host [] n_defi = [] ++ [o]
      ∧ @findAlpha ascii_host ([n_trading] ++ n_defi :: [n_rwa])
        ≡ₚ o :: @findAlpha ascii_host ([n_trading] ++ [n_rwa])
      ∧ AlphaOpportunity.action o = "ACCUMULATE"
      ∧ AlphaOpportunity.confidence o = 0.85
      ∧ AlphaOpportunity.risk o = MEDIUM
      ∧ AlphaOpportunity.suggested_allocation o = "5-10% of portfolio".
Proof.
  split; [reflexivity|]. split; [reflexivity|].
  apply (@high_accelerating_accumulate ascii_host n_defi [] [n_trading] [n_rwa]);
    reflexivity.
Defined.

Lemma medium_dca_or_watchlist_staking :
  Narrative.confidence n_staking = "MEDIUM"
  ∧ ∃ o,
      @findAlpha_step ascii_host [] n_staking = [] ++ [o]
      ∧ @findAlpha ascii_host ([n_defi] ++ n_staking :: [])
        ≡ₚ o :: @findAlpha ascii_host ([n_defi] ++ [])
      ∧ AlphaOpportunity.risk o = LOW
      ∧ (Narrative.direction n_staking = "ACCELERATING" →
           AlphaOpportunity.action o = "DCA"
           ∧ AlphaOpportunity.confidence o = 0.6
           ∧ AlphaOpportunity.suggested_allocation o = "2-5% of portfolio")
      ∧ (Narrative.direction n_staking ≠ "ACCELERATING" →
           AlphaOpportunity.action o = "WATCHLIST"
           ∧ AlphaOpportunity.confidence o = 0.4
           ∧ AlphaOpportunity.suggested_allocation o = "Watch only").
Proof.
  split; [reflexivity|].
  apply (@medium_dca_or_watchlist ascii_host n_staking [] [n_defi] []).
  reflexivity.
Defined.

Lemma unmatched_no_opportunity_trading :
  ¬ (Narrative.confidence n_trading = "HIGH"
     ∧ Narrative.direction n_trading = "ACCELERATING")
  ∧ Narrative.confidence n_trading ≠ "MEDIUM"
  ∧ @findAlpha_step ascii_host [o_defi] n_trading = [o_defi]
  ∧ @emitted ascii_host n_trading = []
  ∧ @findAlpha ascii_host ([n_defi] ++ n_trading :: [n_rwa])
    = @findAlpha ascii_host ([n_defi] ++ [n_rwa]).
Proof.
  assert (¬ (Narrative.confidence n_trading = "HIGH"
             ∧ Narrative.direction n_trading = "ACCELERATING")) as H1
    by (intros [? _]; discriminate).
  assert (Narrative.confidence n_trading ≠ "MEDIUM") as H2 by discriminate.
  split; [exact H1|]. split; [exact H2|].
  exact (@unmatched_no_opportunity ascii_host n_trading [o_defi]
           [n_defi] [n_rwa] H1 H2).
Defined.

Lemma findAlpha_sorted_stable_watchlist :
  StronglySorted confidence_ge
    (@findAlpha ascii_host [n_rwa; n_staking; n_memecoins; n_defi])
  ∧ AlphaOpportunity.narrative <$>
      filter is_watchlist
        (@findAlpha ascii_host [n_rwa; n_staking; n_memecoins; n_defi])
    = ["RWA"; "Memecoins"].
Proof.
  destruct (@findAlpha_sorted_stable ascii_host
              [n_rwa; n_staking; n_memecoins; n_defi]) as [Hsorted Hstable].
  split; [exact Hsorted|].
  rewrite (Hstable is_watchlist); [reflexivity|].
  intros a b Ha Hb.
  repeat (apply elem_of_cons in Ha as [->|Ha]);
    [..|by apply elem_of_nil in Ha];
    repeat (apply elem_of_cons in Hb as [->|Hb]);
    try (by apply elem_of_nil in Hb);
    simpl; intros Pa Pb; first [reflexivity | by destruct Pa | by destruct Pb].
Defined.

Lemma reasoning_verbatim_defi :
  o_defi ∈ @findAlpha ascii_host [n_trading; n_defi]
  ∧ ∃ n, n ∈ [n_trading; n_defi] ∧ o_defi ∈ @emitted ascii_host n ∧
      ((Narrative.confidence n = "HIGH"
        ∧ AlphaOpportunity.action o_defi = "ACCUMULATE"
        ∧ AlphaOpportunity.reasoning o_defi =
            accumulate_template (Narrative.name n)
              (from_option length 0%nat (Narrative.supporting_signals n))
              (Narrative.explanation n))
       ∨ (Narrative.confidence n = "MEDIUM"
          ∧ (AlphaOpportunity.action o_defi = "DCA"
             ∨ AlphaOpportunity.action o_defi = "WATCHLIST")
          ∧ AlphaOpportunity.reasoning o_defi =
              medium_template (Narrative.name n)
                (@toLowerCase ascii_host (Narrative.direction n))
                (Narrative.explanation n))).
Proof.
  assert (o_defi ∈ @findAlpha ascii_host [n_trading; n_defi]) as Hin
    by (change (o_defi ∈ [o_defi]); left).
  split; [exact Hin|].
  exact (@reasoning_verbatim ascii_host [n_trading; n_defi] o_defi Hin).
Defined.

Lemma fetchNarratives_absorbs_unreachable :
  no_narratives (unreachable (radar_endpoint None))
  ∧ (run unreachable (fetchNarratives None)).1 = Normal (JArray []).
Proof.
  split; [exact I|].
  destruct (fetchNarratives_absorbs None unreachable) as (v & Hrun & Hempty & _).
  rewrite Hrun. f_equal. apply Hempty. exact I.
Defined.

Lemma token_prices_total_defi :
  Forall (λ o, ∃ ids, AlphaOpportunity.tokens o = TokenArray ids) [o_defi]
  ∧ ∃ priced,
      with_token_prices
        {[ "JUPyiwrYJFskUPiHa7hkeR8VUtAeFoSYbKedZNsDvCN" := JNumber 1.5 ]}
        [o_defi] = Normal priced
      ∧ PricedOpportunity.opportunity <$> priced = [o_defi].
Proof.
  assert (Forall (λ o, ∃ ids, AlphaOpportunity.tokens o = TokenArray ids)
                 [o_defi]) as Harr.
  { constructor; [|constructor]. eexists. reflexivity. }
  split; [exact Harr|].
  destruct (token_prices_total
              {[ "JUPyiwrYJFskUPiHa7hkeR8VUtAeFoSYbKedZNsDvCN" := JNumber 1.5 ]}
              [o_defi] Harr) as (priced & Hrun & Hopps & _).
  exists priced. split; [exact Hrun|exact Hopps].
Defined.

Lemma at_most_one_per_narrative_sample :
  (length (@findAlpha ascii_host [n_trading; n_defi; n_rwa]) ≤ 3)%nat
  ∧ ∀ o, o ∈ @findAlpha ascii_host [n_trading; n_defi; n_rwa] →
      ∃ n, n ∈ [n_trading; n_defi; n_rwa] ∧ o ∈ @emitted ascii_host n
           ∧ AlphaOpportunity.narrative o = Narrative.name n.
Proof.
  destruct (@at_most_one_per_narrative ascii_host [n_trading; n_defi; n_rwa])
    as (_ & _ & Hlen & Hname).
  split; [exact Hlen|exact Hname].
Defined.

(** * Further properties *)

(** ** The shape of the scorer's result *)

Section ArraySortMore.
Context {A : Type} (comparator : A → A → float).
Local Abbreviation after := (sorts_after comparator).

Lemma sort_insert_skip x l1 l2 :
  (∀ y, y ∈ l1 → after x y = true) →
  sort_insert comparator x (l1 ++ l2) = l1 ++ sort_insert comparator x l2.
Proof.
  induction l1 as [|y l1 IH]; intros Hskip; [done|].
  simpl. rewrite (Hskip y) by by left.
  f_equal. apply IH. intros z Hz. apply Hskip. by right.
Qed.

Lemma sort_insert_stop x l :
  (∀ y, y ∈ l → after x y = false) → sort_insert comparator x l = x :: l.
Proof.
  destruct l as [|y l]; intros Hstop; [done|].
  simpl. by rewrite (Hstop y) by by left.
Qed.

(** A list already in order is returned as it is. *)
Lemma Array_sort_sorted_id l :
  StronglySorted (λ a b, after a b = false) l → Array_sort comparator l = l.
Proof.
  induction 1 as [|x l Hs IH Hx]; [done|].
  simpl. rewrite IH. apply sort_insert_stop.
  by apply Forall_forall.
Qed.
End ArraySortMore.

Section FindAlphaShape.
Context `{Host}.

(** The narratives of one row of the table emit one opportunity of that
    row's action and score. *)
Lemma emitted_high_accelerating n :
  is_high_accelerating n →
  ∃ o, emitted n = [o] ∧ AlphaOpportunity.confidence o = 0.85
       ∧ AlphaOpportunity.action o = "ACCUMULATE"
       ∧ AlphaOpportunity.narrative o = Narrative.name n.
Proof.
  unfold is_high_accelerating, emitted, findAlpha_step. intros Hn.
  rewrite (Is_true_eq_true _ Hn). simpl. eauto 10.
Qed.

Lemma emitted_medium_accelerating n :
  is_medium_accelerating n →
  ∃ o, emitted n = [o] ∧ AlphaOpportunity.confidence o = 0.6
       ∧ AlphaOpportunity.action o = "DCA"
       ∧ AlphaOpportunity.narrative o = Narrative.name n.
Proof.
  unfold is_medium_accelerating, emitted, findAlpha_step.
  intros [Hc Hd]%andb_prop_elim.
  apply Is_true_eq_true, String.eqb_eq in Hc, Hd. rewrite Hc, Hd. simpl.
  eauto 10.
Qed.

Lemma emitted_medium_other n :
  is_medium_other n →
  ∃ o, emitted n = [o] ∧ AlphaOpportunity.confidence o = 0.4
       ∧ AlphaOpportunity.action o = "WATCHLIST"
       ∧ AlphaOpportunity.narrative o = Narrative.name n.
Proof.
  unfold is_medium_other, emitted, findAlpha_step.
  intros [Hc Hd]%andb_prop_elim.
  apply Is_true_eq_true, String.eqb_eq in Hc.
  apply negb_prop_elim, Is_true_false in Hd. rewrite Hc, Hd. simpl.
  eauto 10.
Qed.

Lemma emitted_no_rule n : ¬ matches_a_rule n → emitted n = [].
Proof.
  unfold matches_a_rule, is_high_accelerating, emitted, findAlpha_step.
  intros Hn%Is_true_false. apply orb_false_elim in Hn as [-> ->]. done.
Qed.

Lemma emitted_matches n o : o ∈ emitted n → matches_a_rule n.
Proof.
  intros Ho. destruct (matches_a_rule n) eqn:E; [done|].
  rewrite (emitted_no_rule n) in Ho; [by apply elem_of_nil in Ho|].
  rewrite E. intros [].
Qed.

(** Each narrative is in exactly one of four cases. *)
Lemma rule_cases n :
  (is_high_accelerating n ∧ ¬ is_medium_accelerating n ∧ ¬ is_medium_other n
   ∧ matches_a_rule n)
  ∨ (¬ is_high_accelerating n ∧ is_medium_accelerating n ∧ ¬ is_medium_other n
     ∧ matches_a_rule n)
  ∨ (¬ is_high_accelerating n ∧ ¬ is_medium_accelerating n ∧ is_medium_other n
     ∧ matches_a_rule n)
  ∨ (¬ is_high_accelerating n ∧ ¬ is_medium_accelerating n
     ∧ ¬ is_medium_other n ∧ ¬ matches_a_rule n).
Proof.
  unfold matches_a_rule, is_high_accelerating, is_medium_accelerating,
    is_medium_other.
  destruct (String.eqb (Narrative.confidence n) "HIGH") eqn:E1;
    destruct (String.eqb (Narrative.confidence n) "MEDIUM") eqn:E2;
    destruct (String.eqb (Narrative.direction n) "ACCELERATING") eqn:E3;
    simpl; try tauto.
  all: apply String.eqb_eq in E1, E2; congruence.
Qed.

Lemma run_Forall (p : Narrative.t → bool) (P : AlphaOpportunity.t → Prop) ns :
  (∀ n, p n → ∃ o, emitted n = [o] ∧ P o) →
  Forall P (filter p ns ≫= emitted).
Proof.
  intros Hp. apply Forall_forall.
  intros o (n & Ho & [Hn _]%list_elem_of_filter)%list_elem_of_bind.
  destruct (Hp n Hn) as (o' & He & Hc). rewrite He in Ho.
  by apply list_elem_of_singleton in Ho as ->.
Qed.

Lemma run_high_accelerating ns :
  Forall (λ o, AlphaOpportunity.confidence o = 0.85
               ∧ AlphaOpportunity.action o = "ACCUMULATE")
         (filter is_high_accelerating ns ≫= emitted).
Proof.
  apply run_Forall. intros n Hn.
  destruct (emitted_high_accelerating n Hn) as (o & ? & ? & ? & _). eauto.
Qed.

Lemma run_medium_accelerating ns :
  Forall (λ o, AlphaOpportunity.confidence o = 0.6
               ∧ AlphaOpportunity.action o = "DCA")
         (filter is_medium_accelerating ns ≫= emitted).
Proof.
  apply run_Forall. intros n Hn.
  destruct (emitted_medium_accelerating n Hn) as (o & ? & ? & ? & _). eauto.
Qed.

Lemma run_medium_other ns :
  Forall (λ o, AlphaOpportunity.confidence o = 0.4
               ∧ AlphaOpportunity.action o = "WATCHLIST")
         (filter is_medium_other ns ≫= emitted).
Proof.
  apply run_Forall. intros n Hn.
  destruct (emitted_medium_other n Hn) as (o & ? & ? & ? & _). eauto.
Qed.

Ltac run_after Hrun Hy :=
  let E := fresh in
  rewrite Forall_forall in Hrun; apply Hrun in Hy as [E _];
  unfold sorts_after, by_confidence_desc;
  repeat match goal with
    | E : AlphaOpportunity.confidence _ = _ |- _ => rewrite E; clear E
    end;
  vm_compute; reflexivity.

Lemma findAlpha_runs ns :
  findAlpha ns =
  (filter is_high_accelerating ns ≫= emitted)
  ++ (filter is_medium_accelerating ns ≫= emitted)
  ++ (filter is_medium_other ns ≫= emitted).
Proof.
  rewrite findAlpha_sorted_pushes.
  induction ns as [|n ns IH]; [done|].
  rewrite bind_cons, !filter_cons.
  pose proof (run_high_accelerating ns) as HA.
  pose proof (run_medium_accelerating ns) as HD.
  pose proof (run_medium_other ns) as HW.
  destruct (rule_cases n)
    as [(Hn & ? & ? & _)|[(? & Hn & ? & _)|[(? & ? & Hn & _)|(? & ? & ? & Hn)]]];
    repeat case_decide; try done.
  - rewrite bind_cons.
    destruct (emitted_high_accelerating n Hn) as (o & -> & Ho & _).
    simpl. rewrite IH. apply sort_insert_stop.
    intros y [Hy|[Hy|Hy]%elem_of_app]%elem_of_app.
    + run_after HA Hy.
    + run_after HD Hy.
    + run_after HW Hy.
  - rewrite bind_cons.
    destruct (emitted_medium_accelerating n Hn) as (o & -> & Ho & _).
    simpl. rewrite IH, sort_insert_skip.
    + f_equal. apply sort_insert_stop.
      intros y [Hy|Hy]%elem_of_app; [run_after HD Hy|run_after HW Hy].
    + intros y Hy. run_after HA Hy.
  - rewrite bind_cons.
    destruct (emitted_medium_other n Hn) as (o & -> & Ho & _).
    simpl. rewrite IH, sort_insert_skip.
    + f_equal. rewrite sort_insert_skip.
      * f_equal. apply sort_insert_stop. intros y Hy. run_after HW Hy.
      * intros y Hy. run_after HD Hy.
    + intros y Hy. run_after HA Hy.
  - rewrite (emitted_no_rule n Hn). simpl. apply IH.
Qed.

(** X1: the result is three runs, one behind the other: the ACCUMULATE
    opportunities of the HIGH and ACCELERATING narratives at 0.85, then the
    DCA opportunities of the MEDIUM and ACCELERATING ones at 0.6, then the
    WATCHLIST opportunities of the other MEDIUM ones at 0.4, each run in
    the order of its narratives in the input. *)
Theorem findAlpha_three_runs ns :
  findAlpha ns =
    (filter is_high_accelerating ns ≫= emitted)
    ++ (filter is_medium_accelerating ns ≫= emitted)
    ++ (filter is_medium_other ns ≫= emitted)
  ∧ Forall (λ o, AlphaOpportunity.confidence o = 0.85
                 ∧ AlphaOpportunity.action o = "ACCUMULATE")
           (filter is_high_accelerating ns ≫= emitted)
  ∧ Forall (λ o, AlphaOpportunity.confidence o = 0.6
                 ∧ AlphaOpportunity.action o = "DCA")
           (filter is_medium_accelerating ns ≫= emitted)
  ∧ Forall (λ o, AlphaOpportunity.confidence o = 0.4
                 ∧ AlphaOpportunity.action o = "WATCHLIST")
           (filter is_medium_other ns ≫= emitted).
Proof.
  split; [apply findAlpha_runs|].
  split; [apply run_high_accelerating|].
  split; [apply run_medium_accelerating|apply run_medium_other].
Qed.

Lemma filter_none_before {A} (p : A → bool) l1 x l2 :
  Forall (λ y, ¬ p y) l1 → p x →
  filter p (l1 ++ x :: l2) = x :: filter p l2.
Proof.
  intros Hl1 Hx. rewrite filter_app, filter_cons_True by done.
  induction Hl1 as [|y l1 Hy _ IH]; [done|].
  by rewrite filter_cons_False.
Qed.

(** X3: the first HIGH and ACCELERATING narrative of the input, wherever it
    stands, gives the first opportunity of the result. *)
Theorem findAlpha_top_accumulate l1 n l2 :
  Forall (λ m, ¬ is_high_accelerating m) l1 →
  is_high_accelerating n →
  ∃ o rest,
    findAlpha (l1 ++ n :: l2) = o :: rest
    ∧ emitted n = [o]
    ∧ AlphaOpportunity.narrative o = Narrative.name n
    ∧ AlphaOpportunity.action o = "ACCUMULATE"
    ∧ AlphaOpportunity.confidence o = 0.85.
Proof.
  intros Hl1 Hn.
  destruct (emitted_high_accelerating n Hn) as (o & He & Hc & Ha & Hname).
  exists o. eexists.
  rewrite findAlpha_runs, (filter_none_before _ l1 n l2) by done.
  rewrite bind_cons, He. simpl. eauto.
Qed.

Lemma pushed_length ns :
  length (ns ≫= emitted) = length (filter matches_a_rule ns).
Proof.
  induction ns as [|n ns IH]; [done|].
  rewrite bind_cons, length_app, filter_cons, IH.
  destruct (rule_cases n)
    as [(Hn & _ & _ & Hm)|[(_ & Hn & _ & Hm)|[(_ & _ & Hn & Hm)|(_ & _ & _ & Hm)]]].
  - destruct (emitted_high_accelerating n Hn) as (o & -> & _).
    by rewrite decide_True.
  - destruct (emitted_medium_accelerating n Hn) as (o & -> & _).
    by rewrite decide_True.
  - destruct (emitted_medium_other n Hn) as (o & -> & _).
    by rewrite decide_True.
  - rewrite (emitted_no_rule n Hm). by rewrite decide_False.
Qed.

Lemma findAlpha_nil ns :
  Forall (λ n, ¬ matches_a_rule n) ns → findAlpha ns = [].
Proof.
  intros Hall. apply nil_length_inv.
  rewrite findAlpha_perm, pushed_length.
  induction Hall as [|n ns Hn _ IH]; [done|].
  by rewrite filter_cons_False.
Qed.

(** X2: the result has as many opportunities as the input has narratives that
    are HIGH and ACCELERATING or MEDIUM; it is empty exactly when there is
    none. *)
Theorem findAlpha_count ns :
  length (findAlpha ns) = length (filter matches_a_rule ns)
  ∧ (findAlpha ns = [] ↔ Forall (λ n, ¬ matches_a_rule n) ns).
Proof.
  assert (length (findAlpha ns) = length (filter matches_a_rule ns)) as Hlen.
  { rewrite findAlpha_perm. apply pushed_length. }
  split; [done|]. split; [|apply findAlpha_nil].
  intros Hnil. rewrite Hnil in Hlen. symmetry in Hlen.
  apply nil_length_inv in Hlen. apply Forall_forall. intros n Hn Hm.
  assert (n ∈ filter matches_a_rule ns) as Hin
    by by apply list_elem_of_filter.
  rewrite Hlen in Hin. by apply elem_of_nil in Hin.
Qed.

(** Sorting the result once more leaves it as it is. *)
Theorem findAlpha_sort_again ns :
  Array_sort by_confidence_desc (findAlpha ns) = findAlpha ns.
Proof.
  apply Array_sort_sorted_id. rewrite findAlpha_sorted_pushes.
  apply (Array_sort_sorted _ rule_confidence);
    [apply confidence_after_asym|apply confidence_not_after_trans
    |apply pushed_rule_confidence].
Qed.

(** X4: outside the property names of [Object.prototype] the token lookup does
    what a dictionary does: the tokens of an opportunity are the table's
    entry for the lower-cased name, the empty array when the table has
    none, and names with the same lower-casing get the same tokens. *)
Theorem tokens_outside_prototype n o :
  o ∈ emitted n →
  toLowerCase (Narrative.name n) ∉ Object_prototype_keys →
  AlphaOpportunity.tokens o =
    TokenArray
      (default [] (own_property NARRATIVE_TOKENS
                     (toLowerCase (Narrative.name n))))
  ∧ ∀ n' o', o' ∈ emitted n' →
      toLowerCase (Narrative.name n') = toLowerCase (Narrative.name n) →
      AlphaOpportunity.tokens o' = AlphaOpportunity.tokens o.
Proof.
  intros Ho Hkey. split.
  - rewrite (emitted_tokens n o Ho). unfold get_tokens.
    destruct (own_property _ _); [done|].
    by rewrite bool_decide_eq_false_2.
  - intros n' o' Ho' Hsame.
    by rewrite (emitted_tokens n o Ho), (emitted_tokens n' o' Ho'), Hsame.
Qed.
End FindAlphaShape.

(** ** The summary and the labels of the report *)

Section Summary.
Context `{Host, Engine}.

Lemma percent_of_rule_confidence :
  Number_toFixed0 (PrimFloat.mul 0.85 100) = "85"
  ∧ Number_toFixed0 (PrimFloat.mul 0.6 100) = "60"
  ∧ Number_toFixed0 (PrimFloat.mul 0.4 100) = "40".
Proof. repeat split; vm_compute; reflexivity. Qed.

Lemma summary_of_top o rest action percent :
  AlphaOpportunity.action o = action →
  Number_toFixed0 (PrimFloat.mul (AlphaOpportunity.confidence o) 100) = percent →
  summary_of (o :: rest) =
  "Top alpha: " +:+ AlphaOpportunity.narrative o +:+ " → " +:+ action
  +:+ " (" +:+ percent +:+ "% confidence)".
Proof. intros <- <-. reflexivity. Qed.

Lemma head_filter {A} (p : A → bool) l x :
  head (filter p l) = Some x → p x ∧ ∃ rest, filter p l = x :: rest.
Proof.
  destruct (filter p l) as [|y rest] eqn:E; [done|]. intros [= ->].
  split; [|by exists rest].
  assert (x ∈ filter p l) as Hin by (rewrite E; left).
  by apply list_elem_of_filter in Hin as [? _].
Qed.

(** X5: the summary of the scorer's result names the first narrative of the
    best row of the table that has one, with that row's action and score
    as 85, 60 or 40 percent; without any narrative that matches a rule it
    is the sentence that no opportunity was detected. *)
Theorem summary_of_findAlpha ns :
  (Forall (λ n, ¬ matches_a_rule n) ns →
     summary_of (findAlpha ns) =
     "No high-confidence opportunities detected. Market in consolidation.")
  ∧ (∀ n, head (filter is_high_accelerating ns) = Some n →
       summary_of (findAlpha ns) =
       "Top alpha: " +:+ Narrative.name n
       +:+ " → ACCUMULATE (85% confidence)")
  ∧ (filter is_high_accelerating ns = [] →
     ∀ n, head (filter is_medium_accelerating ns) = Some n →
       summary_of (findAlpha ns) =
       "Top alpha: " +:+ Narrative.name n +:+ " → DCA (60% confidence)")
  ∧ (filter is_high_accelerating ns = [] →
     filter is_medium_accelerating ns = [] →
     ∀ n, head (filter is_medium_other ns) = Some n →
       summary_of (findAlpha ns) =
       "Top alpha: " +:+ Narrative.name n
       +:+ " → WATCHLIST (40% confidence)").
Proof.
  destruct percent_of_rule_confidence as (P85 & P60 & P40).
  split; [|split; [|split]].
  - intros Hnone. by rewrite findAlpha_nil.
  - intros n (Hn & rest & Hrun)%head_filter. rewrite findAlpha_runs, Hrun.
    destruct (emitted_high_accelerating n Hn) as (o & He & Hc & Ha & Hname).
    rewrite bind_cons, He. simpl app.
    rewrite (summary_of_top o _ "ACCUMULATE" "85"), Hname;
      [done|done|by rewrite Hc].
  - intros HA n (Hn & rest & Hrun)%head_filter.
    rewrite findAlpha_runs, HA, Hrun.
    destruct (emitted_medium_accelerating n Hn) as (o & He & Hc & Ha & Hname).
    rewrite bind_cons, He. simpl app.
    rewrite (summary_of_top o _ "DCA" "60"), Hname;
      [done|done|by rewrite Hc].
  - intros HA HD n (Hn & rest & Hrun)%head_filter.
    rewrite findAlpha_runs, HA, HD, Hrun.
    destruct (emitted_medium_other n Hn) as (o & He & Hc & Ha & Hname).
    rewrite bind_cons, He. simpl app.
    rewrite (summary_of_top o _ "WATCHLIST" "40"), Hname;
      [done|done|by rewrite Hc].
Qed.
End Summary.

(** X6: the labels are those of the first three narratives as they came in,
    whatever their scores. *)
Theorem top_narratives_first_three ns :
  length (top_narratives ns) = (length ns `min` 3)%nat
  ∧ (∀ i n, (i < 3)%nat → ns !! i = Some n →
       top_narratives ns !! i =
       Some (Narrative.name n +:+ " [" +:+ Narrative.confidence n +:+ "]"))
  ∧ ∀ more, (3 ≤ length ns)%nat →
      top_narratives (ns ++ more) = top_narratives ns.
Proof.
  unfold top_narratives. split; [|split].
  - rewrite length_fmap, length_take. lia.
  - intros i n Hi Hn. rewrite list_lookup_fmap, lookup_take_lt by done.
    by rewrite Hn.
  - intros more Hlen. by rewrite take_app_le by done.
Qed.

(** ** When the enrichment throws *)

Lemma with_token_prices_arrays prices opportunities :
  Forall (λ o, ∃ ids, AlphaOpportunity.tokens o = TokenArray ids)
         opportunities →
  ∃ priced,
    with_token_prices prices opportunities = Normal priced
    ∧ Forall2 (λ o po,
        PricedOpportunity.opportunity po = o
        ∧ ∃ ids, AlphaOpportunity.tokens o = TokenArray ids
            ∧ PricedOpportunity.token_prices po =
              Object_fromEntries
                ((λ t, (t, or_else (prices !! t) JNull)) <$> ids))
      opportunities priced.
Proof.
  induction 1 as [|o opps [ids Ho] _ (priced & Hrun & Hall)].
  - exists []. split; [done|constructor].
  - eexists (_ :: priced).
    rewrite with_token_prices_cons, (token_prices_of_array _ _ ids Ho), Hrun.
    split; [reflexivity|]. constructor; [|done].
    split; [done|]. by exists ids.
Qed.

Lemma with_token_prices_Normal prices opportunities priced :
  with_token_prices prices opportunities = Normal priced →
  Forall (λ o, ∃ ids, AlphaOpportunity.tokens o = TokenArray ids)
         opportunities.
Proof.
  revert priced. induction opportunities as [|o opps IH]; intros priced Hrun.
  { constructor. }
  rewrite with_token_prices_cons in Hrun. unfold token_prices_of in Hrun.
  destruct (AlphaOpportunity.tokens o) as [ids|key] eqn:Ho; [|done].
  simpl in Hrun.
  destruct (with_token_prices prices opps) as [rest|e] eqn:Hrest; [|done].
  constructor; [by exists ids|]. by eapply IH.
Qed.

Lemma with_token_prices_member prices opportunities :
  Exists (λ o, ∃ key, AlphaOpportunity.tokens o = PrototypeMember key)
         opportunities →
  with_token_prices prices opportunities
  = Throw (TypeError "o.tokens.map is not a function").
Proof.
  induction 1 as [o opps [key Ho]|o opps _ IH];
    rewrite with_token_prices_cons; unfold token_prices_of.
  - by rewrite Ho.
  - rewrite IH. by destruct (AlphaOpportunity.tokens o).
Qed.

Lemma with_token_prices_Throw prices opportunities e :
  with_token_prices prices opportunities = Throw e →
  Exists (λ o, ∃ key, AlphaOpportunity.tokens o = PrototypeMember key)
         opportunities.
Proof.
  induction opportunities as [|o opps IH]; [done|].
  rewrite with_token_prices_cons. unfold token_prices_of.
  destruct (AlphaOpportunity.tokens o) as [ids|key] eqn:Ho.
  - simpl. destruct (with_token_prices prices opps); [done|].
    intros [= <-]. right. by apply IH.
  - intros _. left. by exists key.
Qed.

(** X7: the enrichment throws exactly when the [tokens] of some opportunity
    are not an array, and then it throws the [TypeError] of the missing
    [map]; otherwise it returns one priced opportunity for each
    opportunity. *)
Theorem with_token_prices_throws prices opportunities :
  (Exists (λ o, ∃ key, AlphaOpportunity.tokens o = PrototypeMember key)
          opportunities
   ↔ with_token_prices prices opportunities
     = Throw (TypeError "o.tokens.map is not a function"))
  ∧ (Forall (λ o, ∃ ids, AlphaOpportunity.tokens o = TokenArray ids)
            opportunities
     ↔ ∃ priced, with_token_prices prices opportunities = Normal priced
                 ∧ length priced = length opportunities).
Proof.
  split; split.
  - apply with_token_prices_member.
  - apply with_token_prices_Throw.
  - intros Hall.
    destruct (with_token_prices_arrays prices opportunities Hall)
      as (priced & Hrun & Hrel).
    exists priced. split; [done|]. symmetry. by eapply Forall2_length.
  - intros (priced & Hrun & _). by eapply with_token_prices_Normal.
Qed.

(** X8: whatever the prices are, a value of [token_prices] is [null] or
    truthy: a price of [0] never reaches the response. *)
Theorem token_prices_null_or_truthy prices opportunities priced :
  with_token_prices prices opportunities = Normal priced →
  ∀ po t v,
    po ∈ priced →
    PricedOpportunity.token_prices po !! t = Some v →
    v = JNull ∨ truthy v = true.
Proof.
  intros Hrun po t v Hpo Hv.
  destruct (with_token_prices_arrays prices opportunities)
    as (priced' & Hrun' & Hrel); [by eapply with_token_prices_Normal|].
  assert (priced' = priced) as -> by congruence.
  apply list_elem_of_lookup in Hpo as [i Hi].
  destruct (Forall2_lookup_r _ _ _ _ _ Hrel Hi)
    as (o & _ & _ & ids & _ & Htp).
  rewrite Htp, Object_fromEntries_lookup in Hv.
  case_decide; [|done]. injection Hv as <-.
  unfold or_else. destruct (prices !! t) as [price|]; [|by left].
  destruct (truthy price) eqn:T; [by right|by left].
Qed.

Section ScoredEnrichment.
Context `{Host}.

Lemma emitted_tokens_array n o :
  o ∈ emitted n →
  toLowerCase (Narrative.name n) ∉ Object_prototype_keys →
  ∃ ids, AlphaOpportunity.tokens o = TokenArray ids.
Proof.
  intros ->%emitted_tokens Hkey. unfold get_tokens.
  destruct (own_property _ _) as [ids|]; [by exists ids|].
  rewrite bool_decide_eq_false_2 by done. by exists [].
Qed.

Lemma scored_enrichment_normal prices ns :
  Forall (λ n, matches_a_rule n →
               toLowerCase (Narrative.name n) ∉ Object_prototype_keys) ns →
  ∃ priced,
    with_token_prices prices (findAlpha ns) = Normal priced
    ∧ PricedOpportunity.opportunity <$> priced = findAlpha ns.
Proof.
  intros Hnames.
  destruct (with_token_prices_arrays prices (findAlpha ns))
    as (priced & Hrun & Hrel).
  - apply Forall_forall. intros o (n & Hn & Ho)%elem_of_findAlpha.
    rewrite Forall_forall in Hnames.
    eapply emitted_tokens_array; [done|].
    apply Hnames; [done|]. by eapply emitted_matches.
  - exists priced. split; [done|].
    apply list_eq. intros i. rewrite list_lookup_fmap.
    destruct (findAlpha ns !! i) as [o|] eqn:Ho.
    + destruct (Forall2_lookup_l _ _ _ _ _ Hrel Ho) as (po & -> & <- & _).
      done.
    + apply Forall2_length in Hrel.
      rewrite lookup_ge_None_2; [done|].
      apply lookup_ge_None_1 in Ho. lia.
Qed.

Lemma scored_member ns :
  Exists (λ n, matches_a_rule n
               ∧ toLowerCase (Narrative.name n) ∈ Object_prototype_keys) ns →
  Exists (λ o, ∃ key, AlphaOpportunity.tokens o = PrototypeMember key)
         (findAlpha ns).
Proof.
  intros (n & Hn & Hm & Hkey)%Exists_exists. apply Exists_exists.
  assert (∃ o, o ∈ emitted n) as [o Ho].
  { destruct (rule_cases n)
      as [(C & _)|[(_ & C & _)|[(_ & _ & C & _)|(_ & _ & _ & C)]]];
      [destruct (emitted_high_accelerating n C) as (o & E & _)
      |destruct (emitted_medium_accelerating n C) as (o & E & _)
      |destruct (emitted_medium_other n C) as (o & E & _)
      |done];
      exists o; rewrite E; by left. }
  exists o. split; [apply elem_of_findAlpha; eauto|].
  eexists. by eapply tokens_of_inherited_key.
Qed.

(** X9: for the scorer's result the enrichment returns normally when no
    narrative that matches a rule has a name whose lower-casing is a
    property name of [Object.prototype], and throws as soon as one has. *)
Theorem enrichment_of_findAlpha prices ns :
  (Forall (λ n, matches_a_rule n →
                toLowerCase (Narrative.name n) ∉ Object_prototype_keys) ns →
   ∃ priced,
     with_token_prices prices (findAlpha ns) = Normal priced
     ∧ PricedOpportunity.opportunity <$> priced = findAlpha ns)
  ∧ (Exists (λ n, matches_a_rule n
                  ∧ toLowerCase (Narrative.name n) ∈ Object_prototype_keys) ns →
     with_token_prices prices (findAlpha ns)
     = Throw (TypeError "o.tokens.map is not a function")).
Proof.
  split; [apply scored_enrichment_normal|].
  intros Hbad. by apply with_token_prices_member, scored_member.
Qed.
End ScoredEnrichment.

(** ** The price client, whatever the network answers *)

Lemma run_getTokenPrices network mint mints :
  run network (getTokenPrices (mint :: mints)) =
  (Normal
     match network (prices_endpoint (mint :: mints)) with
     | Some {| body := Some (JObject props) |} =>
         match Object_entries (or_else (own_property props "data") (JObject []))
         with
         | Normal entries => (set_prices entries ∅).1
         | Throw _ => ∅
         end
     | _ => ∅
     end,
   [Requested (prices_endpoint (mint :: mints))]).
Proof.
  unfold getTokenPrices, prices_endpoint.
  rewrite bool_decide_eq_false_2 by (simpl; lia).
  cbn -[String.append String.concat set_prices Object_entries or_else].
  destruct (network _) as [[st [data|]]|];
    cbn -[String.append String.concat set_prices Object_entries or_else];
    [|done..].
  destruct data as [| | | | |props];
    cbn -[String.append String.concat set_prices Object_entries or_else];
    try done.
  destruct (Object_entries _);
    cbn -[String.append String.concat set_prices]; done.
Qed.

(** X10: [getTokenPrices] never throws; it sends one request, to the address
    made of the identifiers joined by commas, when there is an identifier,
    and none otherwise. *)
Theorem getTokenPrices_never_throws network mints :
  ∃ prices,
    run network (getTokenPrices mints) =
    (Normal prices,
     if decide (mints = []) then [] else [Requested (prices_endpoint mints)]).
Proof.
  destruct mints as [|mint mints].
  - by exists ∅.
  - rewrite run_getTokenPrices. rewrite decide_False by done. eauto.
Qed.

(** X11: without price data in the answer the map is empty, whatever the status
    of the answer is. *)
Theorem getTokenPrices_no_data network mints :
  no_price_data (network (prices_endpoint mints)) →
  (run network (getTokenPrices mints)).1 = Normal ∅.
Proof.
  destruct mints as [|mint mints]; [done|].
  rewrite run_getTokenPrices. unfold no_price_data. simpl.
  destruct (network _) as [[st [data|]]|]; simpl; try done.
  destruct data as [| | | | |props]; try done.
  intros Hno. unfold or_else.
  destruct (own_property props "data") as [field|] eqn:E; [|done].
  destruct (truthy field) eqn:T; [|done].
  destruct Hno. by exists props, field.
Qed.

Lemma or_else_zero price :
  or_else price (JNumber 0) = JNumber 0
  ∨ truthy (or_else price (JNumber 0)) = true.
Proof.
  unfold or_else. destruct price as [v|]; [|by left].
  destruct (truthy v) eqn:T; [by right|by left].
Qed.

Lemma set_prices_values entries (prices : gmap string Json) :
  map_Forall (λ _ v, v = JNumber 0 ∨ truthy v = true) prices →
  map_Forall (λ _ v, v = JNumber 0 ∨ truthy v = true)
             (set_prices entries prices).1.
Proof.
  revert prices. induction entries as [|[mint info] rest IH]; intros m Hm.
  { done. }
  simpl. destruct (get_field info "price") as [price|e]; [|done].
  apply IH. apply map_Forall_insert_2; [apply or_else_zero|done].
Qed.

(** X12: every price in the map is truthy or is the number [0]: [null], [false],
    the empty string and [NaN] are never stored. *)
Theorem getTokenPrices_values network mints prices :
  (run network (getTokenPrices mints)).1 = Normal prices →
  ∀ mint v, prices !! mint = Some v → v = JNumber 0 ∨ truthy v = true.
Proof.
  intros Hrun.
  assert (map_Forall (λ _ v, v = JNumber 0 ∨ truthy v = true) prices)
    as Hall; [|exact Hall].
  destruct mints as [|m mints].
  { injection Hrun as <-. apply map_Forall_empty. }
  rewrite run_getTokenPrices in Hrun. injection Hrun as <-.
  repeat case_match; try apply map_Forall_empty.
  apply set_prices_values, map_Forall_empty.
Qed.

Lemma get_field_price info :
  info ≠ JNull →
  ∃ price, get_field info "price" = Normal price
           ∧ or_else price (JNumber 0) = entry_price info.
Proof. destruct info; intros ?; try done; by eexists. Qed.

Lemma own_property_None {V} (props : list (string * V)) key :
  key ∉ props.*1 → own_property props key = None.
Proof.
  induction props as [|[k v] props IH]; [done|].
  rewrite fmap_cons, not_elem_of_cons. intros [Hne Hnin]. simpl in *.
  destruct (String.eqb_spec k key); [congruence|by apply IH].
Qed.

Lemma own_property_Some {V} (props : list (string * V)) key v :
  NoDup props.*1 → (key, v) ∈ props → own_property props key = Some v.
Proof.
  induction props as [|[k w] props IH]; intros Hnd Hin.
  { by apply elem_of_nil in Hin. }
  rewrite fmap_cons in Hnd. apply NoDup_cons in Hnd as [Hk Hnd]. simpl.
  apply elem_of_cons in Hin as [[= -> ->]|Hin].
  - by rewrite String.eqb_refl.
  - destruct (String.eqb_spec k key) as [->|]; [|by apply IH].
    destruct Hk. apply list_elem_of_fmap. by exists (key, v).
Qed.

Lemma set_prices_lookup entries (prices : gmap string Json) mint :
  NoDup entries.*1 →
  Forall (λ e, e.2 ≠ JNull) entries →
  (set_prices entries prices).2 = Normal ()
  ∧ (set_prices entries prices).1 !! mint =
    match own_property entries mint with
    | Some info => Some (entry_price info)
    | None => prices !! mint
    end.
Proof.
  revert prices. induction entries as [|[k info] rest IH]; intros m Hnd Hnn.
  { done. }
  rewrite fmap_cons in Hnd. apply NoDup_cons in Hnd as [Hk Hnd].
  apply Forall_cons in Hnn as [Hinfo Hnn]. simpl in Hinfo.
  destruct (get_field_price info Hinfo) as (price & Hget & Hprice).
  simpl. rewrite Hget. destruct (IH (<[k:=or_else price (JNumber 0)]> m))
    as [Hok Hlook]; [done..|].
  split; [done|]. rewrite Hlook.
  destruct (String.eqb_spec k mint) as [->|Hne].
  - rewrite own_property_None by done.
    by rewrite lookup_insert_eq, Hprice.
  - destruct (own_property rest mint); [done|].
    by rewrite lookup_insert_ne.
Qed.

Lemma set_prices_until_null pre rest (prices : gmap string Json) :
  Forall (λ e, e.2 ≠ JNull) pre →
  (rest = [] ∨ ∃ k rest', rest = (k, JNull) :: rest') →
  (set_prices (pre ++ rest) prices).1 = (set_prices pre prices).1.
Proof.
  revert prices. induction pre as [|[k info] pre IH]; intros m Hnn Hrest.
  - destruct Hrest as [->|(k & rest' & ->)]; done.
  - apply Forall_cons in Hnn as [Hinfo Hnn]. simpl in Hinfo.
    destruct (get_field_price info Hinfo) as (price & Hget & _).
    simpl. rewrite Hget. by apply IH.
Qed.

(** X13: for an answer with a [data] object, the map holds one price for every
    entry of [data] that stands before the first [null] entry, and nothing
    else: the entries behind a [null] one are lost, and what was asked for
    plays no part. *)
Theorem getTokenPrices_payload network mint mints resp props pre rest :
  network (prices_endpoint (mint :: mints)) = Some resp →
  body resp = Some (JObject props) →
  own_property props "data" = Some (JObject (pre ++ rest)) →
  NoDup pre.*1 →
  Forall (λ e, e.2 ≠ JNull) pre →
  (rest = [] ∨ ∃ k rest', rest = (k, JNull) :: rest') →
  ∃ prices,
    (run network (getTokenPrices (mint :: mints))).1 = Normal prices
    ∧ (∀ id info, (id, info) ∈ pre → prices !! id = Some (entry_price info))
    ∧ (∀ id, id ∉ pre.*1 → prices !! id = None).
Proof.
  intros Hnet Hbody Hdata Hnd Hnn Hrest.
  rewrite run_getTokenPrices, Hnet. destruct resp as [st b].
  simpl in Hbody. subst b. rewrite Hdata. simpl.
  eexists. split; [reflexivity|].
  rewrite set_prices_until_null by done. split.
  - intros id info Hin.
    destruct (set_prices_lookup pre ∅ id Hnd Hnn) as [_ ->].
    by rewrite (own_property_Some pre id info).
  - intros id Hid.
    destruct (set_prices_lookup pre ∅ id Hnd Hnn) as [_ ->].
    by rewrite own_property_None.
Qed.

(** ** The narrative fetch: requests and log *)

(** X14: [fetchNarratives] sends exactly one request.  It writes to
    [console.error], once, exactly when an exception was caught: the fetch
    was rejected, the body was not JSON, or the body was [null]; an answer
    that merely lacks the narratives is taken silently. *)
Theorem fetchNarratives_trace env network :
  ∃ log,
    (run network (fetchNarratives env)).2
    = Requested (radar_endpoint env) :: log
    ∧ (log = [] ∨ ∃ e, log = [Logged "Failed to fetch narratives:" e])
    ∧ (log = [] ↔
       ∃ resp data,
         network (radar_endpoint env) = Some resp
         ∧ body resp = Some data ∧ data ≠ JNull).
Proof.
  unfold fetchNarratives, radar_endpoint. simpl.
  destruct (network _) as [[st [data|]]|]; simpl.
  - destruct data; simpl; eexists; (split; [reflexivity|]);
      (split; [eauto|]); split; try done; eauto.
    intros (resp & data & [= <-] & [= <-] & Hnull). done.
  - eexists. split; [reflexivity|]. split; [eauto|].
    split; [done|]. intros (resp & data & [= <-] & ? & _). done.
  - eexists. split; [reflexivity|]. split; [eauto|].
    split; [done|]. intros (resp & data & ? & _). done.
Qed.

(** ** The tokens to price *)

Lemma Set_add_spec {A} `{EqDecision A} (set : list A) x :
  NoDup set →
  NoDup (Set_add set x)
  ∧ (∀ y, y ∈ Set_add set x ↔ y ∈ set ∨ y = x)
  ∧ ∃ new, Set_add set x = set ++ new.
Proof.
  intros Hnd. unfold Set_add. case_decide as Hx.
  - split; [done|]. split; [|exists []; by rewrite app_nil_r].
    intros y. split; [by left|]. by intros [?| ->].
  - split; [|split; [|by eexists]].
    + apply NoDup_app. split; [done|]. split; [|apply NoDup_singleton].
      intros y Hy ->%list_elem_of_singleton. done.
    + intros y. by rewrite elem_of_app, list_elem_of_singleton.
Qed.

Lemma foldl_Set_add_spec {A} `{EqDecision A} (set xs : list A) :
  NoDup set →
  NoDup (foldl Set_add set xs)
  ∧ (∀ y, y ∈ foldl Set_add set xs ↔ y ∈ set ∨ y ∈ xs)
  ∧ ∃ new, foldl Set_add set xs = set ++ new.
Proof.
  revert set. induction xs as [|x xs IH]; intros set Hnd; simpl.
  - split; [done|]. split; [|exists []; by rewrite app_nil_r].
    intros y. split; [by left|]. intros [?|?%elem_of_nil]; done.
  - destruct (Set_add_spec set x Hnd) as (Hnd' & Hin' & new' & Hnew').
    destruct (IH _ Hnd') as (Hnd'' & Hin'' & new'' & Hnew'').
    split; [done|]. split.
    + intros y. rewrite Hin'', Hin', elem_of_cons. tauto.
    + exists (new' ++ new''). by rewrite Hnew'', Hnew', app_assoc.
Qed.

Lemma foldl_Set_add_NoDup {A} `{EqDecision A} (set xs : list A) :
  NoDup (set ++ xs) → foldl Set_add set xs = set ++ xs.
Proof.
  revert set. induction xs as [|x xs IH]; intros set Hnd; simpl.
  { by rewrite app_nil_r. }
  unfold Set_add at 2. rewrite decide_False.
  - rewrite IH; by rewrite <-app_assoc.
  - apply NoDup_app in Hnd as (_ & Hdisj & _). intros Hx.
    apply (Hdisj x Hx). by left.
Qed.

Lemma Set_values_elem {A} `{EqDecision A} (xs : list A) y :
  y ∈ Set_values xs ↔ y ∈ xs.
Proof.
  destruct (foldl_Set_add_spec [] xs) as (_ & Hin & _); [constructor|].
  unfold Set_values. rewrite Hin. split; [|by right].
  intros [?%elem_of_nil|?]; done.
Qed.

Lemma all_tokens_nil opportunities :
  all_tokens opportunities = [] ↔
  Forall (λ o, AlphaOpportunity.tokens o = TokenArray []) opportunities.
Proof.
  unfold all_tokens. split.
  - intros Hnil. apply Forall_forall. intros o Ho.
    destruct (AlphaOpportunity.tokens o) as [[|id ids]|key] eqn:E; [done|..];
      exfalso; eapply (elem_of_nil (A:=Mint)); rewrite <-Hnil;
      apply Set_values_elem, list_elem_of_bind; exists o; (split; [|done]);
      rewrite E; simpl; left.
  - intros Hall.
    assert ((opportunities ≫= λ o, flat_tokens (AlphaOpportunity.tokens o))
            = []) as ->; [|done].
    induction Hall as [|o opps Ho _ IH]; [done|].
    by rewrite bind_cons, Ho, IH.
Qed.

(** X15: the list of tokens to price has no value twice and keeps the order in
    which the values first occur; it holds exactly the identifiers of the
    opportunities' token arrays, and is empty exactly when every
    opportunity has the empty array. *)
Theorem all_tokens_spec opportunities :
  NoDup (all_tokens opportunities)
  ∧ (∀ id, MintId id ∈ all_tokens opportunities ↔
       ∃ o ids, o ∈ opportunities
                ∧ AlphaOpportunity.tokens o = TokenArray ids ∧ id ∈ ids)
  ∧ (all_tokens opportunities = [] ↔
     Forall (λ o, AlphaOpportunity.tokens o = TokenArray []) opportunities)
  ∧ (∀ more, ∃ new,
       all_tokens (opportunities ++ more) = all_tokens opportunities ++ new)
  ∧ (NoDup (opportunities ≫= λ o, flat_tokens (AlphaOpportunity.tokens o)) →
     all_tokens opportunities
     = opportunities ≫= λ o, flat_tokens (AlphaOpportunity.tokens o)).
Proof.
  split; [|split; [|split; [|split]]].
  - unfold all_tokens, Set_values.
    by destruct (foldl_Set_add_spec []
      (opportunities ≫= λ o, flat_tokens (AlphaOpportunity.tokens o)))
      as (? & _); [constructor|].
  - intros id. unfold all_tokens.
    rewrite Set_values_elem, list_elem_of_bind. split.
    + intros (o & Hid & Ho).
      destruct (AlphaOpportunity.tokens o) as [ids|key] eqn:E; simpl in Hid.
      * apply list_elem_of_fmap in Hid as (id' & [= ->] & Hid). eauto.
      * by apply list_elem_of_singleton in Hid.
    + intros (o & ids & Ho & E & Hid). exists o.
      split; [|done]. rewrite E. simpl. by apply list_elem_of_fmap_2.
  - apply all_tokens_nil.
  - intros more. unfold all_tokens, Set_values. rewrite bind_app, foldl_app.
    destruct (foldl_Set_add_spec []
      (opportunities ≫= λ o, flat_tokens (AlphaOpportunity.tokens o)))
      as (Hnd & _); [constructor|].
    by destruct (foldl_Set_add_spec _
      (more ≫= λ o, flat_tokens (AlphaOpportunity.tokens o)) Hnd)
      as (_ & _ & ?).
  - intros Hnd. unfold all_tokens, Set_values.
    by rewrite (foldl_Set_add_NoDup []).
Qed.

(** ** The [/alpha] handler *)

Lemma run_bind {A B} network (m : IO A) (f : A → IO B) :
  run network (m ≫= f) =
  match run network m with
  | (Normal a, trace) =>
      let '(c, trace') := run network (f a) in (c, trace ++ trace')
  | (Throw e, trace) => (Throw e, trace)
  end.
Proof.
  change (m ≫= f) with (IO_bind f m).
  induction m as [[a|e]|url k IH|msg e k IH]; simpl.
  - by destruct (run network (f a)).
  - done.
  - rewrite IH. destruct (run network (k (network url))) as [[a|e] t]; [|done].
    by destruct (run network (f a)).
  - rewrite IH. destruct (run network k) as [[a|e'] t]; [|done].
    by destruct (run network (f a)).
Qed.

Section AlphaHandler.
Context `{Host, Engine}.

Lemma run_alpha_response network now ns :
  ∃ prices,
    run network (alpha_response now ns) =
    (match with_token_prices prices (findAlpha ns) with
     | Normal priced =>
         Normal {| AlphaResponse.opportunities := priced;
                   AlphaResponse.count := length (findAlpha ns);
                   AlphaResponse.analyzed_narratives := length ns;
                   AlphaResponse.timestamp := now |}
     | Throw e => Throw e
     end,
     if decide (all_tokens (findAlpha ns) = []) then []
     else [Requested (prices_endpoint
                        (mint_text <$> all_tokens (findAlpha ns)))]).
Proof.
  unfold alpha_response. rewrite run_bind.
  destruct (all_tokens (findAlpha ns)) as [|m ms] eqn:E.
  - exists ∅. rewrite decide_True by done. simpl.
    destruct (with_token_prices ∅ (findAlpha ns)); done.
  - rewrite fmap_cons, run_getTokenPrices, decide_False by done.
    cbv beta iota.
    match goal with
    | |- context [lift (with_token_prices ?P _)] => exists P
    end.
    unfold lift. destruct (with_token_prices _ (findAlpha ns)); simpl; done.
Qed.

(** X16: when no narrative that matches a rule has a name whose lower-casing is
    a property name of [Object.prototype], the handler answers: with every
    opportunity of the scorer, in its order, their number as [count], the
    number of narratives as [analyzed_narratives], after at most one
    request for prices, and after none when no opportunity has a token. *)
Theorem alpha_response_ok network now ns :
  Forall (λ n, matches_a_rule n →
               toLowerCase (Narrative.name n) ∉ Object_prototype_keys) ns →
  ∃ resp trace,
    run network (alpha_response now ns) = (Normal resp, trace)
    ∧ (length trace ≤ 1)%nat
    ∧ (Forall (λ o, AlphaOpportunity.tokens o = TokenArray [])
              (findAlpha ns) → trace = [])
    ∧ PricedOpportunity.opportunity <$> AlphaResponse.opportunities resp
      = findAlpha ns
    ∧ AlphaResponse.count resp = length (AlphaResponse.opportunities resp)
    ∧ (AlphaResponse.count resp ≤ AlphaResponse.analyzed_narratives resp)%nat
    ∧ AlphaResponse.analyzed_narratives resp = length ns
    ∧ AlphaResponse.timestamp resp = now.
Proof.
  intros Hnames.
  destruct (run_alpha_response network now ns) as (prices & ->).
  destruct (scored_enrichment_normal prices ns Hnames)
    as (priced & -> & Hopps).
  eexists _, _. split; [reflexivity|]. simpl.
  split; [case_decide; simpl; lia|].
  split; [intros Hnone; by rewrite decide_True by by apply all_tokens_nil|].
  split; [done|].
  split; [by rewrite <-Hopps, length_fmap|].
  split; [|done].
  rewrite findAlpha_perm. apply bind_emitted_length.
Qed.

(** X17: when a narrative that matches a rule has a name whose lower-casing
    is a property name of [Object.prototype], the [/alpha] handler first
    sends the request for prices and then throws. *)
Theorem alpha_response_throws network now ns :
  Exists (λ n, matches_a_rule n
               ∧ toLowerCase (Narrative.name n) ∈ Object_prototype_keys) ns →
  run network (alpha_response now ns) =
  (Throw (TypeError "o.tokens.map is not a function"),
   [Requested (prices_endpoint (mint_text <$> all_tokens (findAlpha ns)))]).
Proof.
  intros Hbad%scored_member.
  destruct (run_alpha_response network now ns) as (prices & ->).
  rewrite (with_token_prices_member prices _ Hbad).
  f_equal. rewrite decide_False; [done|].
  intros Hnil%all_tokens_nil.
  apply Exists_exists in Hbad as (o & Ho & key & Hkey).
  rewrite Forall_forall in Hnil. specialize (Hnil o Ho). congruence.
Qed.

(** X18: when no narrative that matches a rule has a name whose lower-casing
    is a property name of [Object.prototype], the report of [/analyze] is
    built, for any wallet stats and prices: it counts the narratives and
    the opportunities, lists at most three labels, carries one priced
    opportunity for each opportunity of the scorer, and passes on the
    network the wallet stats name. *)
Theorem analyze_report_ok now ns walletStats prices :
  Forall (λ n, matches_a_rule n →
               toLowerCase (Narrative.name n) ∉ Object_prototype_keys) ns →
  ∃ report,
    analyze_report now ns (findAlpha ns) walletStats prices = Normal report
    ∧ Report.narratives_analyzed report = length ns
    ∧ Report.opportunities_found report = length (Report.opportunities report)
    ∧ (Report.opportunities_found report
       ≤ Report.narratives_analyzed report)%nat
    ∧ (length (Report.top_narratives report) ≤ 3)%nat
    ∧ PricedOpportunity.opportunity <$> Report.opportunities report
      = findAlpha ns
    ∧ Report.summary report = summary_of (findAlpha ns)
    ∧ Report.agent_network report = WalletStats.network walletStats.
Proof.
  intros Hnames. unfold analyze_report.
  destruct (scored_enrichment_normal prices ns Hnames)
    as (priced & -> & Hopps).
  eexists. split; [reflexivity|]. simpl.
  split; [done|].
  split; [by rewrite <-Hopps, length_fmap|].
  split; [rewrite findAlpha_perm; apply bind_emitted_length|].
  split; [|done].
  unfold top_narratives. rewrite length_fmap, length_take. lia.
Qed.
End AlphaHandler.

(** ** The wallet stats *)

Lemma prefix_app a b : String.prefix a b = true ↔ ∃ post, b = a +:+ post.
Proof.
  revert b. induction a as [|c a IH]; intros [|d b]; simpl.
  - split; [by exists ""|done].
  - split; [by eexists|done].
  - split; [done|]. by intros [? ?].
  - destruct (Ascii.ascii_dec c d) as [->|Hne].
    + rewrite IH. split; intros [post Hpost]; exists post.
      * simpl. by rewrite Hpost.
      * by injection Hpost.
    + split; [done|]. intros [post [= ? _]]. done.
Qed.

(** [includes] finds the needle exactly when the text is some text, the
    needle, and some text. *)
Lemma String_includes_spec needle haystack :
  String_includes needle haystack = true
  ↔ ∃ pre post, haystack = pre +:+ needle +:+ post.
Proof.
  induction haystack as [|c rest IH]; cbn [String_includes].
  - rewrite orb_false_r, prefix_app. split.
    + intros [post Hpost]. by exists "", post.
    + intros ([|? ?] & post & Hpost); [by exists post|done].
  - rewrite orb_true_iff, prefix_app, IH. split.
    + intros [[post Hpost]|(pre & post & ->)].
      * by exists "", post.
      * by exists (String c pre), post.
    + intros ([|c' pre] & post & Hpost).
      * left. by exists post.
      * right. injection Hpost as -> ->. by exists pre, post.
Qed.

(** X20: the label is "devnet" or "mainnet".  With [RPC_URL] set, it is
    "devnet" exactly when the endpoint of the connection contains
    "devnet"; with [RPC_URL] unset or empty, the connection goes to the
    devnet endpoint and the label says "mainnet". *)
Theorem network_label_vs_endpoint RPC_URL :
  (network_label RPC_URL = "devnet" ∨ network_label RPC_URL = "mainnet")
  ∧ (∀ url, RPC_URL = Some url → url ≠ "" →
       connection_endpoint RPC_URL = url
       ∧ (network_label RPC_URL = "devnet"
          ↔ ∃ pre post, url = pre +:+ "devnet" +:+ post))
  ∧ (RPC_URL = None ∨ RPC_URL = Some "" →
       connection_endpoint RPC_URL = "https://api.devnet.solana.com"
       ∧ network_label RPC_URL = "mainnet").
Proof.
  split; [|split].
  - unfold network_label. case_match; auto.
  - intros url -> Hurl%String.eqb_neq.
    unfold connection_endpoint, network_label, env_or. rewrite Hurl.
    split; [done|]. rewrite <-String_includes_spec.
    destruct (String_includes "devnet" url); split; done.
  - by intros [-> | ->].
Qed.

(** X21: [getWalletStats] always returns a record with the address.  The record
    has an [error] exactly when one of the two calls failed; it then has
    the balance [0], neither [network] nor [recent_transactions], and the
    message of the call that failed; after a failed [getBalance] the
    signatures are not asked for.  Without failure it has the balance
    divided by [LAMPORTS_PER_SOL], the number of signatures and the
    label of the network. *)
Theorem getWalletStats_total LAMPORTS_PER_SOL address RPC_URL balance signatures :
  ∃ stats trace,
    run_chain balance signatures
      (getWalletStats LAMPORTS_PER_SOL address RPC_URL) = (stats, trace)
    ∧ WalletStats.address stats = address
    ∧ (∀ message, balance = RpcError message →
         trace = [AskedBalance]
         ∧ WalletStats.error stats = Some message)
    ∧ (∀ lamports message,
         balance = RpcOk lamports → signatures = RpcError message →
         trace = [AskedBalance; AskedSignatures 5]
         ∧ WalletStats.error stats = Some message)
    ∧ (is_Some (WalletStats.error stats) →
         WalletStats.balance_sol stats = 0
         ∧ WalletStats.recent_transactions stats = None
         ∧ WalletStats.network stats = None)
    ∧ (∀ lamports recentTxs,
         balance = RpcOk lamports → signatures = RpcOk recentTxs →
         trace = [AskedBalance; AskedSignatures 5]
         ∧ WalletStats.error stats = None
         ∧ WalletStats.balance_sol stats
           = PrimFloat.div lamports LAMPORTS_PER_SOL
         ∧ WalletStats.recent_transactions stats = Some (length recentTxs)
         ∧ WalletStats.network stats = Some (network_label RPC_URL)).
Proof.
  destruct balance as [lamports|message], signatures as [recentTxs|message'];
    eexists _, _; (split; [reflexivity|]); simpl;
    repeat split; try done; try congruence;
    try (by intros [? ?]).
Qed.

(** ** The [/prices] handler *)

(** X19: the handler never throws and always sends exactly one request: for the
    five distinct tokens of the table, each once, in the order of their
    first occurrence; [count] is the number of prices it got. *)
Theorem prices_response_run network :
  ∃ prices,
    run network prices_response =
    (Normal {| PricesResponse.prices := prices;
               PricesResponse.count := size prices |},
     [Requested (prices_endpoint table_tokens)])
    ∧ NoDup table_tokens
    ∧ length table_tokens = 5%nat
    ∧ ∀ id, id ∈ table_tokens ↔
        ∃ key ids, (key, ids) ∈ NARRATIVE_TOKENS ∧ id ∈ ids.
Proof.
  unfold prices_response. rewrite run_bind.
  assert (∃ mint mints, table_tokens = mint :: mints) as (mint & mints & E)
    by (by eexists _, _).
  rewrite E, run_getTokenPrices, <-E. cbv beta iota.
  eexists. split; [reflexivity|].
  split; [|split; [reflexivity|]].
  - unfold table_tokens, Set_values.
    by destruct (foldl_Set_add_spec [] (mjoin (snd <$> NARRATIVE_TOKENS)))
      as (? & _); [constructor|].
  - intros id. unfold table_tokens.
    rewrite Set_values_elem, list_elem_of_join. split.
    + intros (ids & Hid & (kv & -> & Hkv)%list_elem_of_fmap).
      exists kv.1, kv.2. split; [by destruct kv|done].
    + intros (key & ids & Hkv & Hid). exists ids. split; [done|].
      apply list_elem_of_fmap. by exists (key, ids).
Qed.

Example prices_request :
  prices_endpoint table_tokens =
  "https://api.jup.ag/price/v2?ids=JUPyiwrYJFskUPiHa7hkeR8VUtAeFoSYbKedZNsDvCN,DezXAZ8z7PnrnRJjz3wXBoRgixCa6xjnB7YaB1pPB263,FoqP7aTaibT5npFKYpYYADYY4Dc1GYVqJBJhV88PBvMV,So11111111111111111111111111111111111111112,mSoLzYCxHdYgdzU16g5QSh3i5K3z3KZK7ytfqcJm7So".
Proof. vm_compute. reflexivity. Qed.

(** ** The further properties at sample inputs *)

Lemma findAlpha_top_accumulate_sample :
  Forall (λ m, ¬ is_high_accelerating m) [n_rwa; n_trading]
  ∧ is_high_accelerating n_defi
  ∧ ∃ o rest,
      @findAlpha ascii_host ([n_rwa; n_trading] ++ n_defi :: [n_staking])
      = o :: rest
      ∧ AlphaOpportunity.narrative o = "DeFi".
Proof.
  assert (Forall (λ m, ¬ is_high_accelerating m) [n_rwa; n_trading]) as H1.
  { repeat constructor; intros []. }
  assert (is_high_accelerating n_defi) as H2 by exact I.
  split; [exact H1|]. split; [exact H2|].
  destruct (@findAlpha_top_accumulate ascii_host
              [n_rwa; n_trading] n_defi [n_staking] H1 H2)
    as (o & rest & Hfind & _ & Hname & _).
  exists o, rest. split; [exact Hfind|exact Hname].
Defined.

Lemma tokens_outside_prototype_defi :
  o_defi ∈ @emitted ascii_host n_defi
  ∧ (@toLowerCase ascii_host (Narrative.name n_defi) ∉ Object_prototype_keys)
  ∧ AlphaOpportunity.tokens o_defi =
    TokenArray
      (default [] (own_property NARRATIVE_TOKENS
                     (@toLowerCase ascii_host (Narrative.name n_defi)))).
Proof.
  assert (o_defi ∈ @emitted ascii_host n_defi) as H1
    by (change (o_defi ∈ [o_defi]); left).
  assert (@toLowerCase ascii_host (Narrative.name n_defi)
          ∉ Object_prototype_keys) as H2.
  { apply (bool_decide_eq_false_1 (_ ∈ _)). vm_compute. reflexivity. }
  split; [exact H1|]. split; [exact H2|].
  exact (proj1 (@tokens_outside_prototype ascii_host n_defi o_defi H1 H2)).
Defined.

Lemma summary_of_findAlpha_sample :
  head (filter is_high_accelerating [n_rwa; n_defi]) = Some n_defi
  ∧ @summary_of sample_engine (@findAlpha ascii_host [n_rwa; n_defi])
    = "Top alpha: DeFi → ACCUMULATE (85% confidence)".
Proof.
  assert (head (filter is_high_accelerating [n_rwa; n_defi]) = Some n_defi)
    as H1 by reflexivity.
  split; [exact H1|].
  destruct (@summary_of_findAlpha ascii_host sample_engine [n_rwa; n_defi])
    as (_ & Htop & _).
  exact (Htop n_defi H1).
Defined.

Lemma top_narratives_first_three_sample :
  top_narratives [n_trading; n_rwa; n_defi; n_staking] !! 0%nat
  = Some "Trading [LOW]".
Proof.
  destruct (top_narratives_first_three [n_trading; n_rwa; n_defi; n_staking])
    as (_ & Hlabel & _).
  apply (Hlabel 0%nat n_trading); [lia|reflexivity].
Defined.

Lemma with_token_prices_throws_sample :
  Exists (λ o, ∃ key, AlphaOpportunity.tokens o = PrototypeMember key)
         (@findAlpha ascii_host [n_constructor])
  ∧ with_token_prices ∅ (@findAlpha ascii_host [n_constructor])
    = Throw (TypeError "o.tokens.map is not a function").
Proof.
  assert (Exists (λ o, ∃ key, AlphaOpportunity.tokens o = PrototypeMember key)
                 (@findAlpha ascii_host [n_constructor])) as H1.
  { left. by exists "constructor". }
  split; [exact H1|].
  exact (proj1 (proj1 (with_token_prices_throws ∅
                         (@findAlpha ascii_host [n_constructor]))) H1).
Defined.

Lemma token_prices_null_or_truthy_sample :
  ∃ priced,
    with_token_prices jup_at_zero [o_defi] = Normal priced
    ∧ ∀ po t v, po ∈ priced →
        PricedOpportunity.token_prices po !! t = Some v →
        v = JNull ∨ truthy v = true.
Proof.
  destruct (with_token_prices jup_at_zero [o_defi]) as [priced|e] eqn:E.
  - exists priced. split; [reflexivity|].
    exact (token_prices_null_or_truthy jup_at_zero [o_defi] priced E).
  - vm_compute in E. discriminate E.
Defined.

Lemma enrichment_of_findAlpha_sample :
  Forall (λ n, matches_a_rule n →
               (@toLowerCase ascii_host (Narrative.name n)
                ∉ Object_prototype_keys)) [n_defi; n_trading]
  ∧ ∃ priced,
      with_token_prices jup_at_zero (@findAlpha ascii_host [n_defi; n_trading])
      = Normal priced
      ∧ PricedOpportunity.opportunity <$> priced
        = @findAlpha ascii_host [n_defi; n_trading].
Proof.
  assert (Forall (λ n, matches_a_rule n →
                       (@toLowerCase ascii_host (Narrative.name n)
                        ∉ Object_prototype_keys)) [n_defi; n_trading]) as H1.
  { repeat constructor; intros _; apply (bool_decide_eq_false_1 (_ ∈ _));
      vm_compute; reflexivity. }
  split; [exact H1|].
  exact (proj1 (@enrichment_of_findAlpha ascii_host jup_at_zero
                  [n_defi; n_trading]) H1).
Defined.

Lemma getTokenPrices_no_data_unreachable :
  no_price_data (unreachable (prices_endpoint ["A"; "B"]))
  ∧ (run unreachable (getTokenPrices ["A"; "B"])).1 = Normal ∅.
Proof.
  split; [exact I|].
  apply (getTokenPrices_no_data unreachable ["A"; "B"]). exact I.
Defined.

Lemma getTokenPrices_values_sample :
  ∃ prices,
    (run answers_prices (getTokenPrices ["A"; "B"; "C"])).1 = Normal prices
    ∧ ∀ mint v, prices !! mint = Some v → v = JNumber 0 ∨ truthy v = true.
Proof.
  destruct (run answers_prices (getTokenPrices ["A"; "B"; "C"])).1
    as [prices|e] eqn:E.
  - exists prices. split; [reflexivity|].
    exact (getTokenPrices_values answers_prices ["A"; "B"; "C"] prices E).
  - vm_compute in E. discriminate E.
Defined.

Lemma getTokenPrices_payload_sample :
  ∃ prices,
    (run answers_prices (getTokenPrices ["A"; "B"; "C"])).1 = Normal prices
    ∧ prices !! "A" = Some (JNumber 2)
    ∧ prices !! "C" = None.
Proof.
  destruct (getTokenPrices_payload answers_prices "A" ["B"; "C"]
              {| status := 200;
                 body := Some (JObject
                   [("data", JObject (entries_before_null ++ entries_from_null))]) |}
              [("data", JObject (entries_before_null ++ entries_from_null))]
              entries_before_null entries_from_null)
    as (prices & Hrun & Hin & Hout).
  - reflexivity.
  - reflexivity.
  - reflexivity.
  - repeat constructor. intros Hin. by apply elem_of_nil in Hin.
  - repeat constructor. discriminate.
  - right. by eexists _, _.
  - exists prices. split; [exact Hrun|]. split.
    + apply (Hin "A" (JObject [("price", JNumber 2)])). by left.
    + apply Hout. apply (bool_decide_eq_false_1 (_ ∈ _)). vm_compute. reflexivity.
Defined.

Lemma all_tokens_spec_sample :
  Forall (λ o, AlphaOpportunity.tokens o = TokenArray [])
         (@findAlpha ascii_host [n_rwa])
  ∧ all_tokens (@findAlpha ascii_host [n_rwa]) = [].
Proof.
  assert (Forall (λ o, AlphaOpportunity.tokens o = TokenArray [])
                 (@findAlpha ascii_host [n_rwa])) as H1.
  { repeat constructor. }
  split; [exact H1|].
  destruct (all_tokens_spec (@findAlpha ascii_host [n_rwa]))
    as (_ & _ & Hnil & _).
  apply Hnil. exact H1.
Defined.

Lemma alpha_response_ok_sample :
  Forall (λ n, matches_a_rule n →
               (@toLowerCase ascii_host (Narrative.name n)
                ∉ Object_prototype_keys)) [n_defi; n_trading]
  ∧ ∃ resp trace,
      run unreachable
        (@alpha_response ascii_host sample_engine "2026-01-01T00:00:00.000Z"
           [n_defi; n_trading])
      = (Normal resp, trace)
      ∧ AlphaResponse.count resp = length (AlphaResponse.opportunities resp)
      ∧ AlphaResponse.analyzed_narratives resp = 2%nat.
Proof.
  assert (Forall (λ n, matches_a_rule n →
                       (@toLowerCase ascii_host (Narrative.name n)
                        ∉ Object_prototype_keys)) [n_defi; n_trading]) as H1.
  { repeat constructor; intros _; apply (bool_decide_eq_false_1 (_ ∈ _));
      vm_compute; reflexivity. }
  split; [exact H1|].
  destruct (@alpha_response_ok ascii_host sample_engine unreachable
              "2026-01-01T00:00:00.000Z" [n_defi; n_trading] H1)
    as (resp & trace & Hrun & _ & _ & _ & Hcount & _ & Hlen & _).
  exists resp, trace. split; [exact Hrun|]. split; [exact Hcount|exact Hlen].
Defined.

Lemma alpha_response_throws_sample :
  Exists (λ n, matches_a_rule n
               ∧ (@toLowerCase ascii_host (Narrative.name n)
                  ∈ Object_prototype_keys)) [n_constructor]
  ∧ run unreachable
      (@alpha_response ascii_host sample_engine "2026-01-01T00:00:00.000Z"
         [n_constructor])
    = (Throw (TypeError "o.tokens.map is not a function"),
       [Requested
          "https://api.jup.ag/price/v2?ids=function Object() { [native code] }"]).
Proof.
  assert (Exists (λ n, matches_a_rule n
                       ∧ (@toLowerCase ascii_host (Narrative.name n)
                          ∈ Object_prototype_keys)) [n_constructor]) as H1.
  { left. split; [exact I|]. left. }
  split; [exact H1|].
  exact (@alpha_response_throws ascii_host sample_engine unreachable
           "2026-01-01T00:00:00.000Z" [n_constructor] H1).
Defined.

Lemma analyze_report_ok_sample :
  ∃ report,
    @analyze_report sample_engine "2026-01-01T00:00:00.000Z"
      [n_rwa; n_defi] (@findAlpha ascii_host [n_rwa; n_defi])
      {| WalletStats.address := "wallet"; WalletStats.balance_sol := 0;
         WalletStats.recent_transactions := None;
         WalletStats.network := None;
         WalletStats.error := Some "fetch failed" |}
      jup_at_zero
    = Normal report
    ∧ Report.narratives_analyzed report = 2%nat
    ∧ Report.agent_network report = None.
Proof.
  destruct (@analyze_report_ok ascii_host sample_engine
              "2026-01-01T00:00:00.000Z" [n_rwa; n_defi]
              {| WalletStats.address := "wallet"; WalletStats.balance_sol := 0;
                 WalletStats.recent_transactions := None;
                 WalletStats.network := None;
                 WalletStats.error := Some "fetch failed" |}
              jup_at_zero)
    as (report & Hrun & Hn & _ & _ & _ & _ & _ & Hnet).
  - repeat constructor; intros _; apply (bool_decide_eq_false_1 (_ ∈ _));
      vm_compute; reflexivity.
  - exists report. split; [exact Hrun|]. split; [exact Hn|exact Hnet].
Defined.

Lemma network_label_vs_endpoint_unset :
  connection_endpoint None = "https://api.devnet.solana.com"
  ∧ network_label None = "mainnet".
Proof.
  destruct (network_label_vs_endpoint None) as (_ & _ & Hunset).
  apply Hunset. left. reflexivity.
Defined.

Lemma getWalletStats_total_failed_balance :
  ∃ stats,
    run_chain (RpcError "timeout") (RpcOk [])
      (getWalletStats 1000000000 "wallet" None)
    = (stats, [AskedBalance])
    ∧ WalletStats.error stats = Some "timeout"
    ∧ WalletStats.balance_sol stats = 0.
Proof.
  destruct (getWalletStats_total 1000000000 "wallet" None
              (RpcError "timeout") (RpcOk []))
    as (stats & trace & Hrun & _ & Hfail & _ & Herr & _).
  destruct (Hfail "timeout" eq_refl) as [-> Hmsg].
  exists stats. split; [exact Hrun|]. split; [exact Hmsg|].
  apply Herr. rewrite Hmsg. by eexists.
Defined.

Example alpha_response_no_narratives :
  run unreachable
    (@alpha_response ascii_host sample_engine "2026-01-01T00:00:00.000Z" [])
  = (Normal {| AlphaResponse.opportunities := [];
               AlphaResponse.count := 0;
               AlphaResponse.analyzed_narratives := 0;
               AlphaResponse.timestamp := "2026-01-01T00:00:00.000Z" |},
     []).
Proof. reflexivity. Qed.
